(** * Qualys connector: host-detection retrieval and fan-out

    A shallow embedding of the host-detection part of the Qualys API session
    (package [qualys]: GetTagDetections, GetHostDetections,
    GetHostSpecificDetections, getHostDetectionPostData) and of the connector
    built on it (package [connector]: Detections, pushDetectionsOnChannel and
    the web application finding wrapper), followed by the properties
    established about them. *)

From Stdlib Require Import ZArith Lia Ascii.
From stdpp Require Import base strings list gmap pretty.

Local Open Scope Z_scope.

(* ===================================================================== *)
(** * Go standard library functions used by the code *)
(* ===================================================================== *)

Module strings.

(** [strings.HasPrefix(s, prefix)]. *)
Fixpoint HasPrefix (s p : string) {struct p} : bool :=
  match p, s with
  | EmptyString, _ => true
  | String _ _, EmptyString => false
  | String a p', String b s' => if decide (a = b) then HasPrefix s' p' else false
  end.

(** Position of the first instance of [substr] in [s], counted from [i]. *)
Fixpoint index_from (i : nat) (s substr : string) : option nat :=
  if HasPrefix s substr then Some i
  else match s with
       | EmptyString => None
       | String _ s' => index_from (S i) s' substr
       end.

(** [strings.Index(s, substr)]: the index of the first instance of [substr]
    in [s], or -1 when [substr] is not present in [s]. *)
Definition Index (s substr : string) : Z :=
  match index_from 0 s substr with
  | Some i => Z.of_nat i
  | None => -1
  end.

(** The slice expression [s[k:]] on a string whose length is at least [k]. *)
Fixpoint drop (k : nat) (s : string) : string :=
  match k, s with
  | O, _ => s
  | S k', String _ s' => drop k' s'
  | S _, EmptyString => EmptyString
  end.

(** [strings.Join(elems, sep)]. *)
Fixpoint Join (elems : list string) (sep : string) : string :=
  match elems with
  | [] => EmptyString
  | [e] => e
  | e :: rest => e +:+ sep +:+ Join rest sep
  end.

(** [strings.ToLower] consults the Unicode case tables of the Go runtime; the
    tables are a parameter of the development. *)
Class CaseTables := { ToLower : string -> string }.

(** Lower-casing of one byte of the ASCII range. *)
Definition lower_ascii (c : ascii) : ascii :=
  let n := nat_of_ascii c in
  if (65 <=? n)%nat && (n <=? 90)%nat then ascii_of_nat (n + 32) else c.

Fixpoint lower_string (s : string) : string :=
  match s with
  | EmptyString => EmptyString
  | String c s' => String (lower_ascii c) (lower_string s')
  end.

(** On strings made of ASCII bytes, [strings.ToLower] lower-cases the letters
    A to Z and keeps every other byte. *)
Definition ascii_tables : CaseTables := {| ToLower := lower_string |}.

(** The fields of [s] between the instances of the non-empty separator
    [sep], scanning from the left; [skip] counts the bytes of an instance
    found that are still to be passed over. *)
Fixpoint splitFrom (skip : nat) (s sep : string) : list string :=
  match s with
  | EmptyString => [EmptyString]
  | String c s' =>
      match skip with
      | S k => splitFrom k s' sep
      | O =>
          if HasPrefix s sep then
            EmptyString :: splitFrom (String.length sep - 1) s' sep
          else
            match splitFrom 0 s' sep with
            | f :: fs => String c f :: fs
            | [] => [String c EmptyString]
            end
      end
  end.

(** [strings.Split(s, sep)] for a non-empty [sep]. *)
Definition Split (s sep : string) : list string := splitFrom 0 s sep.

(** [s] with the non-overlapping instances of the non-empty [old] replaced
    by [new], scanning from the left, as long as [budget] allows ([None]:
    no limit). *)
Fixpoint replaceFrom (skip : nat) (budget : option nat) (s old new : string)
    : string :=
  match s with
  | EmptyString => EmptyString
  | String c s' =>
      match skip with
      | S k => replaceFrom k budget s' old new
      | O =>
          match budget with
          | Some O => s
          | _ =>
              if HasPrefix s old then
                new +:+ replaceFrom (String.length old - 1)
                          (Nat.pred <$> budget) s' old new
              else String c (replaceFrom 0 budget s' old new)
          end
      end
  end.

(** [strings.Replace(s, old, new, n)] for a non-empty [old]; a negative [n]
    puts no limit on the number of replacements. *)
Definition Replace (s old new : string) (n : Z) : string :=
  replaceFrom 0 (if n <? 0 then None else Some (Z.to_nat n)) s old new.

End strings.

Module strconv.

(** Value of a string of decimal digits, most significant first. *)
Fixpoint digits (acc : Z) (s : string) : option Z :=
  match s with
  | EmptyString => Some acc
  | String c s' =>
      match Ascii.is_nat c with
      | Some d => digits (10 * acc + Z.of_nat d) s'
      | None => None
      end
  end.

(** [strconv.Atoi(s)] on a platform whose [int] has 64 bits: an optional
    sign, then at least one decimal digit and nothing else, the value being
    in the range of [int]; [None] stands for a non-nil error. *)
Definition Atoi (s : string) : option Z :=
  let '(neg, body) :=
    match s with
    | String "-"%char r => (true, r)
    | String "+"%char r => (false, r)
    | _ => (false, s)
    end in
  match body with
  | EmptyString => None
  | _ =>
      match digits 0 body with
      | Some n =>
          let v := if neg then - n else n in
          if (- 2 ^ 63 <=? v) && (v <=? 2 ^ 63 - 1) then Some v else None
      | None => None
      end
  end.

(** [strconv.Itoa(i)]. *)
Definition Itoa (i : Z) : string := pretty i.

End strconv.

(* ===================================================================== *)
(** * Package domain: the canonical detection statuses *)
(* ===================================================================== *)

Module domain.

(** The status constants of package [domain], which the connector imports;
    their text is a parameter of the development. *)
Class Statuses := {
  Vulnerable : string;
  Fixed : string;
  Informational : string;
  DeadHost : string
}.

End domain.

(* ===================================================================== *)
(** * Package qualys: the API session *)
(* ===================================================================== *)

Module qualys.

(** A Go [error]; [None] is the nil error. *)
Definition error := string.

(** Modelled from the spec: the declaration of the detection type is not in
    the files at hand. A Finding has a vulnerability identifier, a status
    and a proof text; the code reads [d.Status] and [d.Proof], and
    [ProofText] stands for the field [Proof]. *)
Record QHostDetection := {
  QualysID : Z;
  Status : string;
  ProofText : string
}.

(** Modelled from the spec: the declaration of [QHost] is not in the files
    at hand. A Host Record has an identifier, an address and an ordered list
    of Findings; the code reads [host.HostID], [h.IPAddress] and
    [h.Detections]. *)
Record QHost := {
  HostID : Z;
  IPAddress : string;
  Detections : list QHostDetection
}.

(** Modelled from the spec: the Continuation Descriptor of a page, of which
    the code reads [output.Warning.URL]. *)
Record QWarning := { URL : string }.

(** Modelled from the spec: a page, a list of host records plus an optional
    continuation descriptor; the code reads [output.Hosts] and tests
    [output.Warning != nil]. *)
Record QHostListDetectionOutput := {
  Hosts : list QHost;
  Warning : option QWarning
}.

(** One call of [session.post(path, fields, &output)]. *)
Record Request := {
  path : string;
  fields : gmap string string
}.

Inductive Response :=
| Failed (e : error)
| Returned (output : QHostListDetectionOutput).

(** The session: the configured address ([session.Config.Address()]) and
    the Page Fetcher behind [session.post], a collaborator outside this part
    of the code; the service answers a request by its path and fields. *)
Record Session := {
  Address : string;
  post : Request -> Response
}.

(** The package constant [qsAssetVMHost], declared outside the files at
    hand; its text is a parameter of the development. *)
Class Endpoints := { qsAssetVMHost : string }.

(** [getHostDetectionPostData] starts a goroutine and returns at once; its
    named results [totalHosts] and [err] are written by the goroutine and
    read by the [return] statement without synchronisation. [ReturnFirst]:
    the [return] statement runs before the goroutine has issued its post
    call. [PostFirst]: the goroutine has run up to the assignment of
    [totalHosts] when the [return] statement reads the results. *)
Inductive Sched := ReturnFirst | PostFirst.

(** The scheduling of one page: how its [return] is ordered with its
    goroutine, and in which order the records of the page and the records
    forwarded from the following pages are sent on the page's channel
    ([true]: the next record of this page, [false]: the next forwarded
    record). *)
Record PageSched := {
  race : Sched;
  order : list bool
}.

(** The two senders of one channel taking turns. *)
Fixpoint merge {A} (cs : list bool) (own child : list A) : list A :=
  match cs with
  | [] => own ++ child
  | true :: cs' =>
      match own with
      | [] => child
      | x :: own' => x :: merge cs' own' child
      end
  | false :: cs' =>
      match child with
      | [] => own
      | y :: child' => y :: merge cs' own child'
      end
  end.

(** What a pagination run does once its goroutines have all finished: the
    post calls issued, in order, and the records sent on the channel until
    it is closed. *)
Record Run := {
  fetched : list Request;
  stream : list QHost
}.

(** The results of [getHostDetectionPostData] and of its callers as the
    [return] statement delivers them; [out = None] is a nil channel. *)
Record Results := {
  out : option Run;
  totalHosts : Z;
  err : option error
}.

Definition sched_at (ps : list PageSched) : PageSched :=
  match ps with
  | p :: _ => p
  | [] => {| race := ReturnFirst; order := [] |}
  end.

(** The values the [return] statement of [getHostDetectionPostData] reads. *)
Definition returned (s : Session) (r : Sched) (req : Request) : Z * option error :=
  match r with
  | ReturnFirst => (0, None)
  | PostFirst =>
      match post s req with
      | Failed e => (0, Some e)
      | Returned output => (Z.of_nat (length (Hosts output)), None)
      end
  end.

(** The goroutine of [getHostDetectionPostData]. [fuel] bounds the number of
    pages followed; [None] means that the bound was reached with a
    continuation descriptor still present. *)
Fixpoint pages (fuel : nat) (s : Session) (ps : list PageSched)
    (p : string) (fs : gmap string string) : option Run :=
  match fuel with
  | O => None
  | S fuel' =>
      let req := {| path := p; fields := fs |} in
      match post s req with
      | Failed _ => Some {| fetched := [req]; stream := [] |}
      | Returned output =>
          match Warning output with
          | Some w =>
              let next := {| path := URL w; fields := fs |} in
              match pages fuel' s (tail ps) (URL w) fs with
              | Some child =>
                  let forwarded :=
                    match snd (returned s (race (sched_at (tail ps))) next) with
                    | None => stream child
                    | Some _ => []
                    end in
                  Some {| fetched := req :: fetched child;
                          stream := merge (order (sched_at ps)) (Hosts output) forwarded |}
              | None => None
              end
          | None => Some {| fetched := [req]; stream := Hosts output |}
          end
      end
  end.

Definition getHostDetectionPostData (fuel : nat) (s : Session)
    (ps : list PageSched) (p : string) (fs : gmap string string)
    : option Results :=
  match pages fuel s ps p fs with
  | Some run =>
      let '(total, e) := returned s (race (sched_at ps)) {| path := p; fields := fs |} in
      Some {| out := Some run; totalHosts := total; err := e |}
  | None => None
  end.

Definition tagFields (tags : list string) (kernelFilterFlag : Z) : gmap string string :=
  let f0 : gmap string string := ∅ in
  let f1 := <["action" := "list"]> f0 in
  let f2 := <["truncation_limit" := "0"]> f1 in
  let f3 := <["show_reopened_info" := "1"]> f2 in
  let f4 := <["arf_kernel_filter" := strconv.Itoa kernelFilterFlag]> f3 in
  let f5 := <["status" := "New,Active,Re-Opened,Fixed"]> f4 in
  let f6 := <["use_tags" := "1"]> f5 in
  let f7 :=
    match tags with
    | t0 :: _ =>
        match strconv.Atoi t0 with
        | Some _ => <["tag_set_by" := "id"]> f6
        | None => <["tag_set_by" := "name"]> f6
        end
    | [] => f6
    end in
  let f8 := <["tag_include_selector" := "all"]> f7 in
  let f9 := <["tag_set_include" := strings.Join tags ","]> f8 in
  let f10 := <["host_metadata" := "ec2"]> f9 in
  <["host_metadata_fields" := "instanceId"]> f10.

Definition GetTagDetections `{Endpoints} (fuel : nat) (s : Session)
    (ps : list PageSched) (tags : list string) (kernelFilterFlag : Z)
    : option Results :=
  match tags with
  | _ :: _ =>
      getHostDetectionPostData fuel s ps (Address s +:+ qsAssetVMHost)
        (tagFields tags kernelFilterFlag)
  | [] =>
      Some {| out := None; totalHosts := 0;
              err := Some "empty group list passed to GetHostDetections" |}
  end.

Definition groupFields (groups : list string) (kernelFilterFlag : Z) : gmap string string :=
  let f0 : gmap string string := ∅ in
  let f1 := <["action" := "list"]> f0 in
  let f2 := <["truncation_limit" := "2500"]> f1 in
  let f3 := <["show_reopened_info" := "1"]> f2 in
  let f4 := <["status" := "New,Active,Re-Opened,Fixed"]> f3 in
  let f5 := <["arf_kernel_filter" := strconv.Itoa kernelFilterFlag]> f4 in
  <["ag_ids" := strings.Join groups ","]> f5.

Definition GetHostDetections `{Endpoints} (fuel : nat) (s : Session)
    (ps : list PageSched) (groups : list string) (kernelFilterFlag : Z)
    : option Results :=
  match groups with
  | _ :: _ =>
      getHostDetectionPostData fuel s ps (Address s +:+ qsAssetVMHost)
        (groupFields groups kernelFilterFlag)
  | [] =>
      Some {| out := None; totalHosts := 0;
              err := Some "empty group list passed to GetHostDetections" |}
  end.

Definition ipFields (ip groups : list string) (kernelFilterFlag : Z) : gmap string string :=
  let f0 : gmap string string := ∅ in
  let f1 := <["action" := "list"]> f0 in
  let f2 := <["truncation_limit" := "0"]> f1 in
  let f3 := <["show_reopened_info" := "1"]> f2 in
  let f4 := <["status" := "New,Active,Re-Opened,Fixed"]> f3 in
  let f5 := <["arf_kernel_filter" := strconv.Itoa kernelFilterFlag]> f4 in
  let f6 := <["status" := "New,Active,Re-Opened,Fixed"]> f5 in
  let f7 := <["ips" := strings.Join ip ","]> f6 in
  <["ag_ids" := strings.Join groups ","]> f7.

(** The results of [GetHostSpecificDetections]: the post calls it issued, the
    [output] pointer ([None] is nil) and the error. *)
Record SpecificResults := {
  issued : list Request;
  output : option QHostListDetectionOutput;
  specificErr : option error
}.

Definition GetHostSpecificDetections `{Endpoints} (s : Session)
    (ip groups : list string) (kernelFilterFlag : Z) : SpecificResults :=
  match ip with
  | _ :: _ =>
      let req := {| path := Address s +:+ qsAssetVMHost;
                    fields := ipFields ip groups kernelFilterFlag |} in
      match post s req with
      | Failed e =>
          {| issued := [req];
             output := Some {| Hosts := []; Warning := None |};
             specificErr := Some e |}
      | Returned o =>
          {| issued := [req]; output := Some o; specificErr := None |}
      end
  | [] => {| issued := []; output := None; specificErr := None |}
  end.

End qualys.

(* ===================================================================== *)
(** * Package connector *)
(* ===================================================================== *)

Module connector.
Import qualys.

(** ** The web application finding wrapper *)

(** Modelled from the spec: the declaration of [qualys.WebAppFinding] is not
    in the files at hand. A finding has a vulnerability identifier, a raw
    status and a kind; the wrapper reads [f.f.Qid], [f.f.StatusVal] and
    [f.f.Type], and [Type_] stands for the field [Type]. *)
Record WebAppFinding := {
  Qid : string;
  StatusVal : string;
  Type_ : string
}.

Definition info : string := "INFORMATION_GATHERED".

(** [webAppFindingWrapper.Status]. *)
Definition Status `{domain.Statuses} `{strings.CaseTables}
    (f : WebAppFinding) : string :=
  let status := StatusVal f in
  let detectionType := Type_ f in
  if decide (detectionType = info) then domain.Informational
  else
    let l := strings.ToLower status in
    if decide (l = "new") then domain.Vulnerable
    else if decide (l = "active") then domain.Vulnerable
    else if decide (l = "reopened") then domain.Vulnerable
    else if decide (l = "fixed") then domain.Fixed
    else if decide (l = "protected") then domain.Vulnerable
    else status.

(** ** The connector session *)

(** [QsSession]: the API session and the kernel filter of the payload. *)
Record QsSession := {
  apiSession : Session;
  KernelFilter : Z
}.

(** The value sent on the detection channel: a host and one of its
    detections. *)
Record hostDetectionCombo := {
  host : QHost;
  detection : QHostDetection
}.

(** Modelled from the spec: the identity key of a Detection Event, the pair
    of its device identifier and its vulnerability identifier. *)
Definition key (e : hostDetectionCombo) : Z * Z :=
  (HostID (host e), QualysID (detection e)).

(** ** Splitting the identifiers (the first loop of [Detections]) *)

Definition tagPrefix : string := "tag-".

Fixpoint splitIDs (ids tags groupIDs : list string) : list string * list string :=
  match ids with
  | [] => (tags, groupIDs)
  | id :: rest =>
      if 0 <=? strings.Index id tagPrefix then
        splitIDs rest
          (tags ++ [strings.drop
                      (Z.to_nat (strings.Index id tagPrefix
                                 + Z.of_nat (String.length tagPrefix))) id])
          groupIDs
      else splitIDs rest tags (groupIDs ++ [id])
  end.

(** ** [pushDetectionsOnChannel] *)

(** A [select] between [ctx.Done()] and a channel operation: [Some n] lets
    [n] more channel operations through before the [ctx.Done()] case is
    taken, [None] never takes it. *)
Definition Ctx := option nat.

(** The body of the inner loop up to the [select]. *)
Definition mark `{domain.Statuses} (deadHostIPToProof : gmap string string)
    (h : QHost) (d : QHostDetection) : QHostDetection :=
  let deadHostProof := default EmptyString (deadHostIPToProof !! IPAddress h) in
  if decide (0 < String.length deadHostProof)%nat then
    {| QualysID := QualysID d; qualys.Status := domain.DeadHost;
       ProofText := deadHostProof |}
  else if decide (qualys.Status d = "Fixed") then
    {| QualysID := QualysID d; qualys.Status := domain.Fixed;
       ProofText := ProofText d |}
  else d.

(** The inner loop over the detections of one host: the events sent, the
    context left, and whether the function returned [true] from inside. *)
Fixpoint pushHost `{domain.Statuses} (deadHostIPToProof : gmap string string)
    (h : QHost) (ds : list QHostDetection) (ctx : Ctx)
    : list hostDetectionCombo * Ctx * bool :=
  match ds with
  | [] => ([], ctx, false)
  | d :: ds' =>
      let d' := mark deadHostIPToProof h d in
      match ctx with
      | Some O => ([], ctx, true)
      | _ =>
          let '(sent, ctx', stopped) :=
            pushHost deadHostIPToProof h ds' (Nat.pred <$> ctx) in
          ({| host := h; detection := d' |} :: sent, ctx', stopped)
      end
  end.

Fixpoint pushHosts `{domain.Statuses} (deadHostIPToProof : gmap string string)
    (hs : list QHost) (ctx : Ctx) : list hostDetectionCombo * bool :=
  match hs with
  | [] => ([], false)
  | h :: hs' =>
      let '(sent, ctx', stopped) :=
        pushHost deadHostIPToProof h (Detections h) ctx in
      if stopped then (sent, true)
      else
        let '(sent', r) := pushHosts deadHostIPToProof hs' ctx' in
        (sent ++ sent', r)
  end.

(** The events sent on [out] and the boolean returned. *)
Definition pushDetectionsOnChannel `{domain.Statuses} (ctx : Ctx)
    (output : QHostListDetectionOutput)
    (deadHostIPToProof : gmap string string)
    : list hostDetectionCombo * bool :=
  pushHosts deadHostIPToProof (Hosts output) ctx.

(** ** The per-host units of work *)

(** The units of one stage of [Detections]: the map [processedDevVulns]
    they share, what each unit has left to do, and the events sent on [out]
    so far. *)
Record FanOut := {
  processedDevVulns : gset (Z * Z);
  units : list (QHost * list QHostDetection);
  sentOut : list hostDetectionCombo
}.

(** Modelled from the spec: [pushCombosForHost], whose body is not in the
    files at hand. One turn of the unit of host [h] on its next finding [d]:
    the identity key is tested and set in the shared seen-set as one atomic
    step; an event whose key was already present is dropped; cancellation is
    observed before emitting, and a unit that observes it unwinds. *)
Definition pushCombo (cancelled : bool) (h : QHost) (d : QHostDetection)
    (rest : list QHostDetection) (i : nat) (st : FanOut) : FanOut :=
  let e := {| host := h; detection := d |} in
  if decide (key e ∈ processedDevVulns st) then
    {| processedDevVulns := processedDevVulns st;
       units := <[i := (h, rest)]> (units st);
       sentOut := sentOut st |}
  else if cancelled then
    {| processedDevVulns := {[key e]} ∪ processedDevVulns st;
       units := <[i := (h, [])]> (units st);
       sentOut := sentOut st |}
  else
    {| processedDevVulns := {[key e]} ∪ processedDevVulns st;
       units := <[i := (h, rest)]> (units st);
       sentOut := sentOut st ++ [e] |}.

(** The scheduler gives a turn to unit [i]; [cancelled] tells whether the
    unit takes the [ctx.Done()] case at its [select]. *)
Definition turn (t : nat * bool) (st : FanOut) : FanOut :=
  match units st !! fst t with
  | Some (h, d :: rest) => pushCombo (snd t) h d rest (fst t) st
  | _ => st
  end.

Definition turns (ts : list (nat * bool)) (st : FanOut) : FanOut :=
  foldl (fun st t => turn t st) st ts.

(** [wg.Wait()]: every unit runs to its end. *)
Definition finishUnit (cancelled : bool) (st : FanOut) (i : nat) : FanOut :=
  match units st !! i with
  | Some (_, ds) => Nat.iter (length ds) (turn (i, cancelled)) st
  | None => st
  end.

Definition wait (cancelled : bool) (st : FanOut) : FanOut :=
  foldl (finishUnit cancelled) st (seq 0 (length (units st))).

(** ** One stage of [Detections] *)

(** The scheduling of a stage: of the pagination run behind it, of the
    dispatch loop ([observe]: the number of host records received before
    the loop takes the [ctx.Done()] case), and of the units of work. *)
Record StageSched := {
  paging : list PageSched;
  observe : Ctx;
  interleaving : list (nat * bool)
}.

(** What a stage did: the post calls issued for it, the host records its
    pagination run delivers, the host records for which a unit of work was
    started, and the events sent on [out]. *)
Record Stage := {
  requests : list Request;
  delivered : list QHost;
  scheduled : list QHost;
  events : list hostDetectionCombo
}.

(** The dispatch loop: the host records received before it returns. *)
Definition dispatch (ctx : Ctx) (hosts : list QHost) : list QHost :=
  match ctx with
  | Some n => take n hosts
  | None => hosts
  end.

Definition stage (fetch : list PageSched -> option Results)
    (sc : StageSched) : option Stage :=
  match fetch (paging sc) with
  | None => None
  | Some r =>
      let run := default {| fetched := []; stream := [] |} (out r) in
      match err r with
      | None =>
          let received := dispatch (observe sc) (stream run) in
          let st0 := {| processedDevVulns := ∅;
                        units := (fun h => (h, Detections h)) <$> received;
                        sentOut := [] |} in
          let cancelled := bool_decide (is_Some (observe sc)) in
          let st := wait cancelled (turns (interleaving sc) st0) in
          Some {| requests := fetched run;
                  delivered := stream run;
                  scheduled := received;
                  events := sentOut st |}
      | Some _ =>
          Some {| requests := fetched run; delivered := stream run;
                  scheduled := []; events := [] |}
      end
  end.

(** ** [Detections] *)

Record Schedule := {
  groupStage : StageSched;
  tagStage : StageSched
}.

(** What a call of [Detections] did: its two stages, each absent when its
    identifier list is empty. *)
Record Call := {
  groups : option Stage;
  tags : option Stage
}.

Definition stageEvents (st : option Stage) : list hostDetectionCombo :=
  match st with
  | Some s => events s
  | None => []
  end.

Definition stageRequests (st : option Stage) : list Request :=
  match st with
  | Some s => requests s
  | None => []
  end.

(** The events received from the channel that [Detections] returns. *)
Definition detections (c : Call) : list hostDetectionCombo :=
  stageEvents (groups c) ++ stageEvents (tags c).

Definition Detections `{Endpoints} (fuel : nat) (session : QsSession)
    (sch : Schedule) (ids : list string) : option Call :=
  let '(tagIDs, groupIDs) := splitIDs ids [] [] in
  let g :=
    match groupIDs with
    | _ :: _ =>
        Some <$> stage (fun ps => GetHostDetections fuel (apiSession session) ps
                                    groupIDs (KernelFilter session))
                       (groupStage sch)
    | [] => Some None
    end in
  match g with
  | None => None
  | Some gs =>
      let t :=
        match tagIDs with
        | _ :: _ =>
            Some <$> stage (fun ps => GetTagDetections fuel (apiSession session) ps
                                        tagIDs (KernelFilter session))
                           (tagStage sch)
        | [] => Some None
        end in
      match t with
      | None => None
      | Some ts => Some {| groups := gs; tags := ts |}
      end
  end.

End connector.

(* ===================================================================== *)
(** * Package connector: [ScanResults] *)
(* ===================================================================== *)

Module scanresults.
Import qualys connector.

(** The IP list that [ScanResults] passes to [GetHostSpecificDetections]
    for a scan whose target is [target]. *)
Definition scanIPs (target : string) : list string :=
  let ipList := strings.Replace target ", " "," (-1) in
  strings.Split ipList ",".

(** The value sent on the dead-host channel. *)
Record deadIPProofCombo := {
  ip : string;
  proof : string
}.

Definition Key (d : deadIPProofCombo) : string := ip d.

Definition Value (d : deadIPProofCombo) : string := proof d.

(** The goroutine that sends the dead hosts: [entries] are the entries of
    [deadHostIPToProof] in the order in which the [range] statement visits
    them, which Go leaves open. *)
Fixpoint sendDeadHosts (ctx : Ctx) (entries : list (string * string))
    : list deadIPProofCombo :=
  match entries with
  | [] => []
  | (deadIP, p) :: rest =>
      match ctx with
      | Some O => []
      | _ => {| ip := deadIP; proof := p |}
               :: sendDeadHosts (Nat.pred <$> ctx) rest
      end
  end.

(** The loop that forwards the events of [Detections] for a scheduled scan:
    [detections] are the events still to be received from the channel,
    which is closed after them. The [break] of the branch for a closed
    channel leaves the [select] statement, not the loop. [fuel] bounds the
    number of iterations; [None] means that the loop has not returned
    within the bound, [Some sent] that it has returned after sending
    [sent] on [out]. *)
Fixpoint forwardScheduled {A} (fuel : nat) (ctx : Ctx) (detections : list A)
    : option (list A) :=
  match fuel with
  | O => None
  | S fuel' =>
      match ctx with
      | Some O => Some []
      | _ =>
          match detections with
          | val :: rest =>
              match Nat.pred <$> ctx with
              | Some O => Some []
              | ctx' =>
                  cons val <$> forwardScheduled fuel' (Nat.pred <$> ctx') rest
              end
          | [] => forwardScheduled fuel' (Nat.pred <$> ctx) []
          end
      end
  end.

End scanresults.

(* ===================================================================== *)
(** * Package connector: [Discovery] *)
(* ===================================================================== *)

Module discovery.

(** The first loop of [Discovery]: the IPs of the matches, each kept at its
    first occurrence; [seen] is the map of the IPs met so far. *)
Fixpoint uniqueLoop (ips : list string) (seen : gmap string bool)
    (uniqueIPs : list string) : list string :=
  match ips with
  | [] => uniqueIPs
  | i :: rest =>
      if negb (default false (seen !! i)) then
        uniqueLoop rest (<[i := true]> seen) (uniqueIPs ++ [i])
      else uniqueLoop rest seen uniqueIPs
  end.

(** [uniqueIPs] as [Discovery] computes it from the matches; [IP] is the
    method of the interface [domain.Match]. *)
Definition uniqueIPs {M} (IP : M -> string) (matches : list M) : list string :=
  uniqueLoop (IP <$> matches) ∅ [].

End discovery.

(* ===================================================================== *)
(** * Package connector: [Scans] *)
(* ===================================================================== *)

Module scans.
Import qualys connector.

(** The type [scan] is declared outside the files at hand; these are the
    fields that [Scans] and [ScanResults] read and write. [Created] is a
    [time.Time], here its Unix time. *)
Record scan := {
  ScanID : string;
  Name : string;
  Created : Z;
  GroupID : string;
  Scheduled : bool;
  TemplateID : string
}.

(** The fields of a scheduled scan that [Scans] reads. *)
Record ScheduledScan := {
  Reference : string;
  LaunchDate : Z
}.

(** The collaborators of [Scans]: [json.Unmarshal] into a fresh [scan]
    ([None]: an error), and the two calls of the API session, which return
    an error or a result; the scheduled scan is a pointer, [None] is nil. *)
Record Api := {
  Unmarshal : string -> option scan;
  GetScheduledScan : string -> error + option ScheduledScan;
  GetAssetTagTargetOfScheduledScan : string -> error + string
}.

(** What the goroutine of [Scans] does, in order. *)
Inductive Event :=
| Looked (name : string)
| Targeted (name : string)
| Sent (s : scan).

Definition resolved (s : scan) (ss : ScheduledScan) (tagsCovered : string) : scan :=
  {| ScanID := Reference ss;
     Name := Name s;
     Created := LaunchDate ss;
     GroupID := tagsCovered;
     Scheduled := true;
     TemplateID := TemplateID s |}.

(** The loop of [Scans]: [payloads] are the payloads still to be received
    from the channel, which is closed after them. *)
Fixpoint scansLoop (api : Api) (payloads : list string) (ctx : Ctx)
    (seen : gmap string bool) : list Event :=
  match payloads with
  | [] => []
  | payload :: rest =>
      match ctx with
      | Some O => []
      | _ =>
          let ctx1 := Nat.pred <$> ctx in
          match Unmarshal api payload with
          | Some s =>
              if decide (0 < String.length (ScanID s))%nat then
                match ctx1 with
                | Some O => []
                | _ => Sent s :: scansLoop api rest (Nat.pred <$> ctx1)
                                   (<[Name s := true]> seen)
                end
              else if negb (default false (seen !! Name s))
                      && bool_decide (0 < String.length (Name s))%nat then
                match GetScheduledScan api (Name s) with
                | inr (Some scheduledScan) =>
                    match GetAssetTagTargetOfScheduledScan api (Name s) with
                    | inr tagsCovered =>
                        match ctx1 with
                        | Some O => [Looked (Name s); Targeted (Name s)]
                        | _ =>
                            Looked (Name s) :: Targeted (Name s)
                              :: Sent (resolved s scheduledScan tagsCovered)
                              :: scansLoop api rest (Nat.pred <$> ctx1)
                                   (<[Name s := true]> seen)
                        end
                    | inl _ =>
                        Looked (Name s) :: Targeted (Name s)
                          :: scansLoop api rest ctx1 seen
                    end
                | inr None => Looked (Name s) :: scansLoop api rest ctx1 seen
                | inl _ => Looked (Name s) :: scansLoop api rest ctx1 seen
                end
              else scansLoop api rest ctx1 seen
          | None => scansLoop api rest ctx1 seen
          end
      end
  end.

(** The events of [Scans]: the loop starts with an empty map. *)
Definition Scans (api : Api) (ctx : Ctx) (payloads : list string) : list Event :=
  scansLoop api payloads ctx ∅.

Definition sent (e : Event) : option scan :=
  match e with
  | Sent s => Some s
  | _ => None
  end.

Definition looked (e : Event) : option string :=
  match e with
  | Looked n => Some n
  | _ => None
  end.

End scans.

(* ===================================================================== *)
(** * Package connector: [KnowledgeBase] *)
(* ===================================================================== *)

Module knowledgebase.

(** The loop of [KnowledgeBase] over the [n] vulnerabilities still to be
    handled. [count] is the counter of the loop and [pending] the number of
    goroutines started since the last [wg.Wait()], which bounds the
    goroutines in flight; [cancel] is the number of iterations before the
    [ctx.Done()] case is taken ([None]: never). The result lists [pending]
    as it is after each goroutine is started. *)
Fixpoint kbLoop (n : nat) (cancel : option nat) (count pending : nat)
    : list nat :=
  match n with
  | O => []
  | S n' =>
      match cancel with
      | Some O => []
      | _ =>
          let count' := S count in
          let pending' := if decide (count' mod 50 = 0)%nat then O else pending in
          S pending' :: kbLoop n' (Nat.pred <$> cancel) count' (S pending')
      end
  end.

End knowledgebase.

(* ===================================================================== *)
(** * Specification-side definitions *)
(* ===================================================================== *)

Module spec.
Import qualys connector.

(** The split of the identifiers as the specification words it: the
    identifiers prefixed with the literal are tag-style, with the prefix
    removed, all others are group-style. *)
Definition prefixSplit (ids : list string) : list string * list string :=
  (strings.drop (String.length tagPrefix)
     <$> filter (fun id => strings.HasPrefix id tagPrefix = true) ids,
   filter (fun id => strings.HasPrefix id tagPrefix <> true) ids).

(** The branch one iteration of the first loop of [Detections] takes:
    [inl] for an identifier appended to [tags], [inr] for one appended to
    [groupIDs]. *)
Definition classify (id : string) : string + string :=
  if 0 <=? strings.Index id tagPrefix then
    inl (strings.drop
           (Z.to_nat (strings.Index id tagPrefix
                      + Z.of_nat (String.length tagPrefix))) id)
  else inr id.

Definition tagOf (c : string + string) : option string :=
  match c with inl t => Some t | inr _ => None end.

Definition groupOf (c : string + string) : option string :=
  match c with inl _ => None | inr g => Some g end.

(** Classification by occurrence: an identifier in which the literal occurs
    is tag-style and keeps what follows the first occurrence; an identifier
    in which it does not occur is group-style and is kept whole. *)
Inductive Classified : string -> string + string -> Prop :=
| tag_style pre post :
    (forall pre' post',
        pre +:+ tagPrefix +:+ post = pre' +:+ tagPrefix +:+ post' ->
        (String.length pre <= String.length pre')%nat) ->
    Classified (pre +:+ tagPrefix +:+ post) (inl post)
| group_style id :
    (forall pre post, id <> pre +:+ tagPrefix +:+ post) ->
    Classified id (inr id).

(** The property that every turn of the units maintains: the events sent
    have pairwise distinct keys, all of them recorded in the shared map;
    events and units stem from the host records received. *)
Record Inv (hs : list QHost) (st : FanOut) : Prop := {
  inv_nodup : NoDup (key <$> sentOut st);
  inv_seen : forall e, e ∈ sentOut st -> key e ∈ processedDevVulns st;
  inv_sent : forall e, e ∈ sentOut st ->
                       host e ∈ hs /\ detection e ∈ qualys.Detections (host e);
  inv_units : forall i h ds, units st !! i = Some (h, ds) ->
                             h ∈ hs /\ forall d, d ∈ ds -> d ∈ qualys.Detections h
}.

(** A fetch whose post calls do not depend on the scheduling. *)
Definition Steady (fetch : list PageSched -> option Results) : Prop :=
  forall ps ps' r,
    fetch ps = Some r ->
    exists r', fetch ps' = Some r' /\ fetched <$> out r' = fetched <$> out r.

(** The chain of pages of a pagination run as the specification words it:
    the first page is fetched; a page with a continuation descriptor is
    followed by the page at the descriptor's URL, a failed fetch or a page
    without a descriptor ends the chain. *)
Inductive Chain (s : Session) (fs : gmap string string)
  : string -> list Request -> Prop :=
| chain_failed p e :
    post s {| path := p; fields := fs |} = Failed e ->
    Chain s fs p [{| path := p; fields := fs |}]
| chain_last p o :
    post s {| path := p; fields := fs |} = Returned o ->
    Warning o = None ->
    Chain s fs p [{| path := p; fields := fs |}]
| chain_next p o w rest :
    post s {| path := p; fields := fs |} = Returned o ->
    Warning o = Some w ->
    Chain s fs (URL w) rest ->
    Chain s fs p ({| path := p; fields := fs |} :: rest).

(** What a context lets through of a sequence of channel operations. *)
Definition limit {A} (ctx : Ctx) (l : list A) : list A :=
  match ctx with
  | Some n => take n l
  | None => l
  end.

Definition spent (ctx : Ctx) (k : nat) : Ctx := (fun n => n - k)%nat <$> ctx.

Definition exhausted (ctx : Ctx) (k : nat) : bool :=
  match ctx with
  | Some n => bool_decide (n < k)%nat
  | None => false
  end.


(** Every detection of every host, in order, as one event each. *)
Definition expand `{domain.Statuses} (deadHostIPToProof : gmap string string)
    (hs : list QHost) : list hostDetectionCombo :=
  h ← hs;
  (fun d => {| host := h; detection := mark deadHostIPToProof h d |})
    <$> qualys.Detections h.

(** The elements of a list, each kept at its first occurrence only. *)
Fixpoint firsts (l : list string) : list string :=
  match l with
  | [] => []
  | x :: l' => x :: filter (fun y => y <> x) (firsts l')
  end.

(** A map of seen keys that records exactly the elements of a list. *)
Definition Records (seen : gmap string bool) (l : list string) : Prop :=
  forall i, default false (seen !! i) = true <-> i ∈ l.

(** The map of seen names after the events of a trace of [Scans]: a name
    is recorded when a scan of that name is sent. *)
Definition seenBy (seen : gmap string bool) (tr : list scans.Event)
    : gmap string bool :=
  foldl (fun m e =>
           match scans.sent e with
           | Some s => <[scans.Name s := true]> m
           | None => m
           end) seen tr.

(** A payload that leaves no trace given the names seen: it does not
    decode, or it has no scan ID and its name is empty or seen. *)
Definition Quiet (api : scans.Api) (seen : gmap string bool) (payload : string)
    : Prop :=
  match scans.Unmarshal api payload with
  | None => True
  | Some s =>
      scans.ScanID s = EmptyString /\
      (scans.Name s = EmptyString \/
       default false (seen !! scans.Name s) = true)
  end.

End spec.

(* ===================================================================== *)
(** * Concrete sessions and records used in the examples *)
(* ===================================================================== *)

Module fixtures.
Import qualys connector.

Definition statuses : domain.Statuses :=
  {| domain.Vulnerable := "vulnerable";
     domain.Fixed := "fixed";
     domain.Informational := "informational";
     domain.DeadHost := "dead host" |}.

Definition endpoints : Endpoints :=
  {| qsAssetVMHost := "/api/2.0/fo/asset/host/vm/detection/" |}.

Definition active100 : QHostDetection :=
  {| QualysID := 100; qualys.Status := "Active"; ProofText := "" |}.

Definition fixed200 : QHostDetection :=
  {| QualysID := 200; qualys.Status := "Fixed"; ProofText := "patched" |}.

(** A host on which vulnerability 100 is reported twice. *)
Definition host7 : QHost :=
  {| HostID := 7; IPAddress := "10.0.0.1";
     qualys.Detections := [active100; active100] |}.

Definition host8 : QHost :=
  {| HostID := 8; IPAddress := "10.0.0.2";
     qualys.Detections := [active100; fixed200] |}.

Definition base : string := "https://q/api/2.0/fo/asset/host/vm/detection/".

(** A service with two pages of hosts for asset groups, the first of which
    is empty, and one page for tags. *)
Definition service (r : Request) : Response :=
  if decide (path r = base) then
    if decide (fields r !! "use_tags" = Some "1") then
      Returned {| Hosts := [host8]; Warning := None |}
    else Returned {| Hosts := []; Warning := Some {| URL := "page2" |} |}
  else if decide (path r = "page2") then
    Returned {| Hosts := [host8; host7]; Warning := None |}
  else Failed "no such page".

(** The two requests of a pagination run for asset group ag1. *)
Definition groupRequest : Request :=
  {| path := base; fields := groupFields ["ag1"] 0 |}.

Definition page2Request : Request :=
  {| path := "page2"; fields := groupFields ["ag1"] 0 |}.

(** The request of a pagination run for the tags 123 and prod. *)
Definition tagRequest : Request :=
  {| path := base; fields := tagFields ["123"; "prod"] 0 |}.

(** A service that is down. *)
Definition down (r : Request) : Response := Failed "connection refused".

Definition session (srv : Request -> Response) : QsSession :=
  {| apiSession := {| Address := "https://q"; post := srv |};
     KernelFilter := 0 |}.

Definition scan7 : QHostListDetectionOutput :=
  {| Hosts := [host7]; Warning := None |}.

Definition scan8 : QHostListDetectionOutput :=
  {| Hosts := [host8]; Warning := None |}.

(** Dead-host proof maps: one with a proof text for host 8, one in which
    the address of host 7 is a key with an empty proof text. *)
Definition noResponse : gmap string string :=
  {[ "10.0.0.2" := "no response to probes" ]}.

Definition emptyProof : gmap string string :=
  {[ "10.0.0.1" := EmptyString ]}.

Definition dead100 : hostDetectionCombo :=
  {| host := host8;
     detection := {| QualysID := 100; qualys.Status := "dead host";
                     ProofText := "no response to probes" |} |}.

(** No cancellation, units run one after the other. *)
Definition calm : StageSched :=
  {| paging := []; observe := None; interleaving := [] |}.

(** The dispatch loop takes the [ctx.Done()] case at once. *)
Definition cancelledAtOnce : StageSched :=
  {| paging := []; observe := Some O; interleaving := [] |}.

(** A call of [Detections] for one asset group and one tag, both of which
    cover host 8. *)
Definition crossRun : option Call :=
  @Detections endpoints 3 (session service)
    {| groupStage := calm; tagStage := calm |} ["ag1"; "tag-prod"].

Definition crossCall : Call :=
  default {| groups := None; tags := None |} crossRun.

(** The same call when the dispatch loop of the group stage takes the
    [ctx.Done()] case before it receives a host record. *)
Definition cancelledRun : option Call :=
  @Detections endpoints 3 (session service)
    {| groupStage := cancelledAtOnce; tagStage := cancelledAtOnce |}
    ["ag1"; "tag-prod"].

Definition cancelledCall : Call :=
  default {| groups := None; tags := None |} cancelledRun.

(** A service with two pages for asset groups, one host on each. *)
Definition twoPages (r : Request) : Response :=
  if decide (path r = base) then
    Returned {| Hosts := [host7]; Warning := Some {| URL := "page2" |} |}
  else if decide (path r = "page2") then
    Returned {| Hosts := [host8]; Warning := None |}
  else Failed "no such page".

(** The forwarded record of the second page is sent before the record of
    the first page. *)
Definition childFirst : list PageSched :=
  [ {| race := ReturnFirst; order := [false] |} ].

Definition twoPageRun : Run :=
  {| fetched := [groupRequest; page2Request]; stream := [host8; host7] |}.

Definition twoPageResults : Results :=
  {| out := Some twoPageRun; totalHosts := 0; err := None |}.

(** A dead-host proof map with two entries, and its entries in an order
    of visit. *)
Definition twoDead : gmap string string :=
  {[ "10.0.0.2" := "no response to probes"; "10.0.0.9" := "host unreachable" ]}.

Definition twoDeadEntries : list (string * string) :=
  [ ("10.0.0.9", "host unreachable"); ("10.0.0.2", "no response to probes") ].

(** Payloads of [Scans]: "weekly" decodes to the name of a schedule
    without a scan ID, "{" does not decode, and any other payload decodes
    to a scan of the schedule with the payload as its scan ID. *)
Definition weekly : scans.scan :=
  {| scans.ScanID := EmptyString; scans.Name := "weekly"; scans.Created := 0;
     scans.GroupID := EmptyString; scans.Scheduled := false;
     scans.TemplateID := EmptyString |}.

Definition scanApi : scans.Api :=
  {| scans.Unmarshal := fun p =>
       if decide (p = "{") then None
       else if decide (p = "weekly") then Some weekly
       else Some {| scans.ScanID := p; scans.Name := "weekly";
                    scans.Created := 0; scans.GroupID := EmptyString;
                    scans.Scheduled := false;
                    scans.TemplateID := EmptyString |};
     scans.GetScheduledScan := fun n =>
       inr (Some {| scans.Reference := "scan/1"; scans.LaunchDate := 5 |});
     scans.GetAssetTagTargetOfScheduledScan := fun n => inr "tag-prod" |}.

(** The call of [Detections] that [ScanResults] makes for a scheduled scan
    whose group ID text lists two asset groups. *)
Definition scheduledRun : option Call :=
  @Detections endpoints 2 (session twoPages)
    {| groupStage := calm; tagStage := calm |} (strings.Split "ag1,ag2" ",").

Definition scheduledCall : Call :=
  default {| groups := None; tags := None |} scheduledRun.

End fixtures.

(* ===================================================================== *)
(** * Facts about the string functions *)
(* ===================================================================== *)

Section strings_facts.
Import strings.

Lemma append_nil_l (s : string) : EmptyString +:+ s = s.
Proof. reflexivity. Qed.

Lemma append_cons a (s t : string) : String a s +:+ t = String a (s +:+ t).
Proof. reflexivity. Qed.

Lemma append_assoc (a b c : string) : (a +:+ b) +:+ c = a +:+ b +:+ c.
Proof.
  induction a as [|x a IH]; [done|]. rewrite !append_cons. by rewrite IH.
Qed.

Lemma length_append (a b : string) :
  String.length (a +:+ b) = (String.length a + String.length b)%nat.
Proof.
  induction a as [|x a IH]; [done|]. rewrite append_cons. simpl. by rewrite IH.
Qed.

Lemma HasPrefix_app p r : HasPrefix (p +:+ r) p = true.
Proof.
  induction p as [|a p IH]; [done|].
  rewrite append_cons. simpl. by rewrite decide_True.
Qed.

Lemma HasPrefix_inv s p : HasPrefix s p = true -> exists r, s = p +:+ r.
Proof.
  revert s. induction p as [|a p IH]; intros s; simpl.
  - intros _. by exists s.
  - destruct s as [|b s]; [done|]. case_decide; [|done].
    intros [r ->]%IH. subst. by exists r.
Qed.

Lemma index_from_first i s sub k :
  index_from i s sub = Some k ->
  exists pre post,
    s = pre +:+ sub +:+ post /\ k = (i + String.length pre)%nat /\
    forall pre' post', s = pre' +:+ sub +:+ post' ->
                       (String.length pre <= String.length pre')%nat.
Proof.
  revert i. induction s as [|a s IH]; intros i; simpl.
  - destruct (HasPrefix "" sub) eqn:Hp; [|done].
    intros [= <-]. apply HasPrefix_inv in Hp as [r Hr].
    exists EmptyString, r. split_and!; [done|simpl; lia|]. intros; simpl; lia.
  - destruct (HasPrefix (String a s) sub) eqn:Hp.
    + intros [= <-]. apply HasPrefix_inv in Hp as [r Hr].
      exists EmptyString, r. split_and!; [done|simpl; lia|]. intros; simpl; lia.
    + intros Hi. destruct (IH _ Hi) as (pre & post & Hs & Hk & Hmin).
      exists (String a pre), post. split_and!.
      * by rewrite append_cons, <-Hs.
      * simpl. lia.
      * intros [|b pre'] post' Heq.
        -- rewrite append_nil_l in Heq. by rewrite Heq, HasPrefix_app in Hp.
        -- rewrite append_cons in Heq. injection Heq as _ Heq.
           apply Hmin in Heq. simpl. lia.
Qed.

Lemma index_from_at i pre sub post :
  (forall pre' post', pre +:+ sub +:+ post = pre' +:+ sub +:+ post' ->
                      (String.length pre <= String.length pre')%nat) ->
  index_from i (pre +:+ sub +:+ post) sub = Some (i + String.length pre)%nat.
Proof.
  revert i. induction pre as [|a pre IH]; intros i Hmin.
  - rewrite append_nil_l.
    assert (index_from i (sub +:+ post) sub = Some i) as ->.
    { destruct (sub +:+ post) eqn:E; simpl; rewrite <-?E, HasPrefix_app; done. }
    simpl. f_equal. lia.
  - rewrite append_cons. simpl.
    destruct (HasPrefix (String a (pre +:+ sub +:+ post)) sub) eqn:Hp.
    + apply HasPrefix_inv in Hp as [r Hr].
      specialize (Hmin EmptyString r). rewrite append_cons, append_nil_l in Hmin.
      specialize (Hmin Hr). simpl in Hmin. lia.
    + rewrite IH; [f_equal; lia|]. intros pre' post' Heq.
      specialize (Hmin (String a pre') post'). rewrite !append_cons in Hmin.
      rewrite Heq in Hmin. specialize (Hmin eq_refl). simpl in Hmin. lia.
Qed.

Lemma index_from_absent i s sub pre post :
  index_from i s sub = None -> s <> pre +:+ sub +:+ post.
Proof.
  revert i pre. induction s as [|a s IH]; intros i pre; simpl.
  - destruct (HasPrefix "" sub) eqn:Hp; [done|]. intros _ Heq.
    destruct pre; [|done]. rewrite append_nil_l in Heq.
    by rewrite Heq, HasPrefix_app in Hp.
  - destruct (HasPrefix (String a s) sub) eqn:Hp; [done|]. intros Hn Heq.
    destruct pre as [|b pre].
    + rewrite append_nil_l in Heq. by rewrite Heq, HasPrefix_app in Hp.
    + rewrite append_cons in Heq. injection Heq as _ Heq. by eapply IH.
Qed.

Lemma drop_append pre r : drop (String.length pre) (pre +:+ r) = r.
Proof.
  induction pre as [|a pre IH]; [by destruct r|]. by rewrite append_cons.
Qed.

End strings_facts.


(* ===================================================================== *)
(** * The split of the identifiers *)
(* ===================================================================== *)

Section identifiers.
Import qualys connector spec.

Lemma classify_Classified id : Classified id (classify id).
Proof.
  unfold classify, strings.Index.
  destruct (strings.index_from 0 id tagPrefix) as [k|] eqn:E.
  - apply index_from_first in E as (pre & post & -> & -> & Hmin).
    rewrite (proj2 (Z.leb_le _ _)) by lia.
    replace (Z.to_nat _) with (String.length (pre +:+ tagPrefix)).
    2:{ rewrite length_append. simpl. lia. }
    rewrite <-append_assoc, drop_append, append_assoc. by constructor.
  - simpl. constructor. intros pre post. by eapply index_from_absent.
Qed.

Lemma Classified_classify id c : Classified id c -> classify id = c.
Proof.
  intros [pre post Hmin|id' Habs]; unfold classify, strings.Index.
  - rewrite index_from_at by done. rewrite (proj2 (Z.leb_le _ _)) by lia.
    replace (Z.to_nat _) with (String.length (pre +:+ tagPrefix)).
    2:{ rewrite length_append. simpl. lia. }
    by rewrite <-append_assoc, drop_append.
  - destruct (strings.index_from 0 id' tagPrefix) as [k|] eqn:E; [|done].
    apply index_from_first in E as (pre & post & -> & _). by destruct (Habs pre post).
Qed.

Lemma splitIDs_step id ids ts gs :
  splitIDs (id :: ids) ts gs =
    match classify id with
    | inl t => splitIDs ids (ts ++ [t]) gs
    | inr g => splitIDs ids ts (gs ++ [g])
    end.
Proof.
  unfold classify. simpl. by destruct (0 <=? strings.Index id tagPrefix).
Qed.

Lemma splitIDs_classify ids ts gs :
  splitIDs ids ts gs =
    (ts ++ omap tagOf (classify <$> ids), gs ++ omap groupOf (classify <$> ids)).
Proof.
  revert ts gs. induction ids as [|id ids IH]; intros ts gs.
  - simpl. by rewrite !app_nil_r.
  - rewrite splitIDs_step, fmap_cons.
    destruct (classify id); rewrite IH; csimpl; by rewrite <-app_assoc.
Qed.

(** C9, as amended: [Detections] classifies an identifier as tag-style
    exactly when the literal "tag-" occurs in it, keeping what follows the
    first occurrence, and as group-style otherwise, keeping it whole; both
    lists preserve the order of the input. The classification is unique, an
    identifier prefixed with "tag-" loses just the prefix, and
    ["ag1","tag-prod","ag2"] yields the groups ["ag1","ag2"] and the tags
    ["prod"]. *)
Theorem identifiers_split_by_occurrence (ids : list string) :
  (exists cs,
      Forall2 Classified ids cs /\
      splitIDs ids [] [] = (omap tagOf cs, omap groupOf cs)) /\
  (forall id c c', Classified id c -> Classified id c' -> c = c') /\
  (forall rest, Classified (tagPrefix +:+ rest) (inl rest)) /\
  splitIDs ["ag1"; "tag-prod"; "ag2"] [] [] = (["prod"], ["ag1"; "ag2"]).
Proof.
  split_and!.
  - exists (classify <$> ids). split; [|by rewrite splitIDs_classify].
    apply Forall2_fmap_r, Forall_Forall2_diag, Forall_forall.
    intros id _. apply classify_Classified.
  - intros id c c' H1%Classified_classify H2%Classified_classify. congruence.
  - intros rest. apply (tag_style EmptyString rest). intros; simpl; lia.
  - reflexivity.
Qed.

(** C9, as stated, fails: "xtag-prod" is not prefixed with "tag-", yet it is
    classified tag-style, as "prod". *)
Lemma identifiers_split_prefix_counterexample :
  splitIDs ["xtag-prod"] [] [] = (["prod"], []) /\
  splitIDs ["xtag-prod"] [] [] <> prefixSplit ["xtag-prod"].
Proof. split; [reflexivity|]. vm_compute. discriminate. Qed.

End identifiers.

(* ===================================================================== *)
(** * The status of a web application finding *)
(* ===================================================================== *)

Section findings.
Import qualys connector spec.

(** C3, as amended: [Status] returns Informational whenever the kind of the
    finding is INFORMATION_GATHERED, whatever the raw status. Otherwise it
    lower-cases the raw status and returns Vulnerable for new, active,
    reopened and protected, Fixed for fixed, and the raw status itself for
    anything else. So the raw statuses New, Active and Protected give
    Vulnerable, Fixed gives Fixed and REOPENED gives Vulnerable, while the
    hyphenated Re-Opened is returned as it is. *)
Theorem finding_status_vocabulary `{domain.Statuses} (f : WebAppFinding) :
  (forall `{strings.CaseTables},
      (Type_ f = info -> Status f = domain.Informational) /\
      (Type_ f <> info ->
       strings.ToLower (StatusVal f) ∈ ["new"; "active"; "reopened"; "protected"] ->
       Status f = domain.Vulnerable) /\
      (Type_ f <> info -> strings.ToLower (StatusVal f) = "fixed" ->
       Status f = domain.Fixed) /\
      (Type_ f <> info ->
       strings.ToLower (StatusVal f)
         ∉ ["new"; "active"; "reopened"; "protected"; "fixed"] ->
       Status f = StatusVal f)) /\
  (forall raw,
      Type_ f <> info -> StatusVal f = raw ->
      (raw ∈ ["New"; "Active"; "Protected"; "REOPENED"] ->
       @Status _ strings.ascii_tables f = domain.Vulnerable) /\
      (raw = "Fixed" -> @Status _ strings.ascii_tables f = domain.Fixed) /\
      (raw = "Re-Opened" -> @Status _ strings.ascii_tables f = "Re-Opened")).
Proof.
  split.
  - intros T. unfold Status. split_and!.
    + intros ->. by rewrite decide_True.
    + intros Hk Hin. rewrite decide_False by done.
      repeat (apply elem_of_cons in Hin as [->|Hin]); try done.
      by apply elem_of_nil in Hin.
    + intros Hk ->. by rewrite decide_False.
    + intros Hk Hn. rewrite decide_False by done.
      rewrite !not_elem_of_cons in Hn. destruct Hn as (?&?&?&?&?&_).
      by repeat case_decide.
  - intros raw Hk Hraw. unfold Status. rewrite decide_False by done.
    rewrite Hraw. split_and!.
    + intros Hin. repeat (apply elem_of_cons in Hin as [->|Hin]); try done.
      by apply elem_of_nil in Hin.
    + by intros ->.
    + by intros ->.
Qed.

(** C3, as stated, fails: for the raw status Re-Opened of a finding of kind
    VULNERABILITY, [Status] returns Re-Opened, not Vulnerable. *)
Lemma finding_status_reopened_counterexample :
  @Status fixtures.statuses strings.ascii_tables
    {| Qid := "150001"; StatusVal := "Re-Opened"; Type_ := "VULNERABILITY" |}
  = "Re-Opened" /\
  @Status fixtures.statuses strings.ascii_tables
    {| Qid := "150001"; StatusVal := "Re-Opened"; Type_ := "VULNERABILITY" |}
  <> @domain.Vulnerable fixtures.statuses.
Proof. split; [reflexivity|]. vm_compute. discriminate. Qed.

End findings.

(* ===================================================================== *)
(** * The events of the scan-results path *)
(* ===================================================================== *)

Section scan_results.
Import qualys connector spec.
Context `{domain.Statuses}.

Lemma pushHost_limit m h ds ctx :
  pushHost m h ds ctx =
    (limit ctx ((fun d => {| host := h; detection := mark m h d |}) <$> ds),
     spent ctx (length ds), exhausted ctx (length ds)).
Proof.
  revert ctx. induction ds as [|d ds IH]; intros ctx.
  - destruct ctx as [n|]; [|done].
    unfold limit, spent, exhausted. cbn [pushHost fmap list_fmap length option_fmap option_map].
    by rewrite take_nil, Nat.sub_0_r, bool_decide_eq_false_2 by lia.
  - cbn [pushHost]. destruct ctx as [[|n]|].
    + unfold limit, spent, exhausted. cbn [length fmap option_fmap option_map].
      by rewrite take_0, bool_decide_eq_true_2 by lia.
    + rewrite IH. unfold limit, spent, exhausted.
      cbn [fmap list_fmap length option_fmap option_map Nat.pred take].
      do 2 f_equal. apply bool_decide_ext. lia.
    + by rewrite IH.
Qed.

Lemma pushHosts_limit m hs ctx :
  pushHosts m hs ctx =
    (limit ctx (expand m hs), exhausted ctx (length (expand m hs))).
Proof.
  revert ctx. induction hs as [|h hs IH]; intros ctx.
  - destruct ctx as [n|]; [|done]. unfold limit, exhausted, expand.
    cbn [pushHosts mbind list_bind length].
    by rewrite take_nil, bool_decide_eq_false_2 by lia.
  - cbn [pushHosts]. rewrite pushHost_limit.
    unfold expand. rewrite bind_cons. fold (expand m hs).
    set (own := (fun d => {| host := h; detection := mark m h d |})
                  <$> qualys.Detections h).
    assert (length own = length (qualys.Detections h)) as Hlen
        by (unfold own; by rewrite length_fmap).
    rewrite <-Hlen, length_app.
    destruct ctx as [n|]; unfold limit, spent, exhausted;
      cbn [fmap option_fmap option_map].
    + case_bool_decide as Hn.
      * rewrite bool_decide_eq_true_2 by lia.
        by rewrite take_app_le by lia.
      * rewrite IH. unfold limit, exhausted. f_equal; [|apply bool_decide_ext; lia].
        rewrite take_app_ge by lia. f_equal. rewrite take_ge by lia. done.
    + rewrite IH. done.
Qed.

Lemma elem_of_expand m hs e :
  e ∈ expand m hs <->
  exists d, host e ∈ hs /\ d ∈ qualys.Detections (host e) /\
            detection e = mark m (host e) d.
Proof.
  unfold expand. rewrite list_elem_of_bind. split.
  - intros (h & (d & -> & Hd)%list_elem_of_fmap & Hh). by exists d.
  - intros (d & Hh & Hd & Hm). exists (host e). split; [|done].
    apply list_elem_of_fmap. exists d. split; [|done]. destruct e; simpl in *.
    by rewrite Hm.
Qed.

Lemma mark_dead m h d proof :
  m !! IPAddress h = Some proof -> proof <> EmptyString ->
  mark m h d = {| QualysID := QualysID d; qualys.Status := domain.DeadHost;
                  ProofText := proof |}.
Proof.
  intros Hm Hp. unfold mark. rewrite Hm. simpl.
  rewrite decide_True; [done|]. destruct proof; [done|simpl; lia].
Qed.

Lemma mark_alive m h d :
  m !! IPAddress h = None \/ m !! IPAddress h = Some EmptyString ->
  mark m h d =
    if decide (qualys.Status d = "Fixed") then
      {| QualysID := QualysID d; qualys.Status := domain.Fixed;
         ProofText := ProofText d |}
    else d.
Proof.
  intros Hm. unfold mark.
  assert (default EmptyString (m !! IPAddress h) = EmptyString) as ->
      by (by destruct Hm as [-> | ->]).
  rewrite decide_False; [done|]. simpl. lia.
Qed.

(** C4, as amended: every event that [pushDetectionsOnChannel] sends pairs a
    host of the output with one of its detections, marked as follows. If
    the dead-host proof map holds a non-empty proof text for the host's IP
    address, the status is DeadHost and the proof is that text verbatim,
    whatever the raw status. Otherwise, so also when the address is a key
    mapped to the empty text, a raw status equal to "Fixed" becomes the
    canonical Fixed and any other detection is sent unchanged. *)
Theorem dead_host_overrides_with_nonempty_proof
    (ctx : Ctx) (output : QHostListDetectionOutput)
    (deadHostIPToProof : gmap string string) (e : hostDetectionCombo) :
  e ∈ (pushDetectionsOnChannel ctx output deadHostIPToProof).1 ->
  host e ∈ Hosts output /\
  exists d,
    d ∈ qualys.Detections (host e) /\
    QualysID (detection e) = QualysID d /\
    (forall proof,
        deadHostIPToProof !! IPAddress (host e) = Some proof ->
        proof <> EmptyString ->
        qualys.Status (detection e) = domain.DeadHost /\
        ProofText (detection e) = proof) /\
    (deadHostIPToProof !! IPAddress (host e) = None \/
     deadHostIPToProof !! IPAddress (host e) = Some EmptyString ->
     (qualys.Status d = "Fixed" ->
      qualys.Status (detection e) = domain.Fixed /\
      ProofText (detection e) = ProofText d) /\
     (qualys.Status d <> "Fixed" -> detection e = d)).
Proof.
  unfold pushDetectionsOnChannel. rewrite pushHosts_limit. simpl.
  intros He.
  assert (e ∈ expand deadHostIPToProof (Hosts output)) as Hin.
  { destruct ctx as [n|]; simpl in He; [|done].
    apply elem_of_take in He as (i & Hi & _). by eapply list_elem_of_lookup_2. }
  apply elem_of_expand in Hin as (d & Hh & Hd & Hm).
  split; [done|]. exists d. split_and!; [done|..].
  - rewrite Hm. unfold mark. by repeat case_decide.
  - intros proof Hp Hne. by rewrite Hm, (mark_dead _ _ _ proof).
  - intros Ha. rewrite Hm, mark_alive by done. split.
    + intros Hf. by rewrite decide_True.
    + intros Hf. by rewrite decide_False.
Qed.

End scan_results.

Lemma dead_host_overrides_with_nonempty_proof_witness :
  fixtures.dead100
    ∈ (@connector.pushDetectionsOnChannel fixtures.statuses None
         fixtures.scan8 fixtures.noResponse).1 /\
  qualys.Status (connector.detection fixtures.dead100) = "dead host" /\
  qualys.ProofText (connector.detection fixtures.dead100)
    = "no response to probes".
Proof.
  assert (fixtures.dead100
            ∈ (@connector.pushDetectionsOnChannel fixtures.statuses None
                 fixtures.scan8 fixtures.noResponse).1) as Hin.
  { vm_compute. apply list_elem_of_here. }
  split; [exact Hin|].
  destruct (@dead_host_overrides_with_nonempty_proof fixtures.statuses None
              fixtures.scan8 fixtures.noResponse fixtures.dead100 Hin)
    as (_ & d & _ & _ & Hdead & _).
  apply (Hdead "no response to probes"); [reflexivity|discriminate].
Defined.

(** C4, as stated, fails: the address of host 7 is a key of the dead-host
    proof map, mapped to the empty text, and the events of host 7 keep the
    raw status Active. *)
Lemma dead_host_empty_proof_counterexample :
  is_Some (fixtures.emptyProof !! qualys.IPAddress fixtures.host7) /\
  (@connector.pushDetectionsOnChannel fixtures.statuses None
     fixtures.scan7 fixtures.emptyProof).1
  = [ {| connector.host := fixtures.host7;
         connector.detection := fixtures.active100 |};
      {| connector.host := fixtures.host7;
         connector.detection := fixtures.active100 |} ] /\
  qualys.Status fixtures.active100 <> @domain.DeadHost fixtures.statuses.
Proof.
  split_and!; [by eexists|reflexivity|]. vm_compute. discriminate.
Qed.


(* ===================================================================== *)
(** * The units of work of a stage and their shared map *)
(* ===================================================================== *)

Section fan_out.
Import qualys connector spec.

Lemma Inv_init hs :
  Inv hs {| processedDevVulns := ∅;
            units := (fun h => (h, qualys.Detections h)) <$> hs;
            sentOut := [] |}.
Proof.
  split; simpl.
  - constructor.
  - intros e He. by apply elem_of_nil in He.
  - intros e He. by apply elem_of_nil in He.
  - intros i h ds Hi. apply list_lookup_fmap_Some in Hi as (h' & [= -> ->] & Hh).
    split; [by eapply list_elem_of_lookup_2|done].
Qed.

Lemma units_insert_inv (hs : list QHost) (us : list (QHost * list QHostDetection)) i h ds ds' :
  us !! i = Some (h, ds) ->
  (forall d, d ∈ ds' -> d ∈ ds) ->
  (forall j h0 ds0, us !! j = Some (h0, ds0) ->
                    h0 ∈ hs /\ forall d, d ∈ ds0 -> d ∈ qualys.Detections h0) ->
  forall j h0 ds0, <[i := (h, ds')]> us !! j = Some (h0, ds0) ->
                   h0 ∈ hs /\ forall d, d ∈ ds0 -> d ∈ qualys.Detections h0.
Proof.
  intros Hi Hsub Hall j h0 ds0 Hj.
  destruct (decide (i = j)) as [->|Hne].
  - rewrite list_lookup_insert_eq in Hj by (by eapply lookup_lt_Some).
    injection Hj as <- <-. destruct (Hall _ _ _ Hi) as [? Hd]. split; [done|].
    intros d Hd'. by apply Hd, Hsub.
  - rewrite list_lookup_insert_ne in Hj by done. by eapply Hall.
Qed.

Lemma Inv_turn hs t st : Inv hs st -> Inv hs (turn t st).
Proof.
  intros [Hnd Hseen Hsent Hunits]. unfold turn.
  destruct (units st !! t.1) as [[h [|d rest]]|] eqn:Hu; try by split.
  unfold pushCombo. destruct (Hunits _ _ _ Hu) as [Hh Hds].
  case_decide as Hk; [|destruct t.2].
  - split; simpl; try done.
    eapply units_insert_inv; [done| |done]. intros d' ?. by apply elem_of_cons; right.
  - split; simpl; try done.
    + intros e He. apply elem_of_union; right. by apply Hseen.
    + eapply units_insert_inv; [done| |done]. intros d' Hd'. by apply elem_of_nil in Hd'.
  - split; simpl.
    + rewrite fmap_app. apply NoDup_app. split_and!; [done| |apply NoDup_singleton].
      intros k Hin Hk'. apply list_elem_of_singleton in Hk' as ->.
      apply list_elem_of_fmap in Hin as (e & He & Hin). apply Hk.
      rewrite He. by apply Hseen.
    + intros e [He| ->%list_elem_of_singleton]%elem_of_app.
      * apply elem_of_union; right. by apply Hseen.
      * apply elem_of_union; left. by apply elem_of_singleton.
    + intros e [He| ->%list_elem_of_singleton]%elem_of_app; [by apply Hsent|].
      simpl. split; [done|]. apply Hds. by apply elem_of_cons; left.
    + eapply units_insert_inv; [done| |done]. intros d' ?. by apply elem_of_cons; right.
Qed.

Lemma Inv_turns hs ts st : Inv hs st -> Inv hs (turns ts st).
Proof.
  unfold turns. revert st. induction ts as [|t ts IH]; intros st Hst; [done|].
  simpl. by apply IH, Inv_turn.
Qed.

Lemma Inv_iter hs t n st : Inv hs st -> Inv hs (Nat.iter n (turn t) st).
Proof. intros Hst. induction n as [|n IH]; [done|]. simpl. by apply Inv_turn. Qed.

Lemma Inv_wait hs c st : Inv hs st -> Inv hs (wait c st).
Proof.
  unfold wait. generalize (seq 0 (length (units st))). intros idx.
  revert st. induction idx as [|i idx IH]; intros st Hst; [done|].
  simpl. apply IH. unfold finishUnit.
  destruct (units st !! i) as [[h ds]|]; [|done]. by apply Inv_iter.
Qed.

Lemma stage_events fetch sc st :
  stage fetch sc = Some st ->
  NoDup (key <$> events st) /\
  forall e, e ∈ events st ->
            host e ∈ scheduled st /\ detection e ∈ qualys.Detections (host e).
Proof.
  unfold stage. destruct (fetch (paging sc)) as [r|]; [|done].
  destruct (err r) as [msg|]; intros [= <-]; simpl.
  - split; [constructor|]. intros e He. by apply elem_of_nil in He.
  - match goal with
    | |- context [wait ?c (turns ?ts ?st0)] =>
        pose proof (Inv_wait (dispatch (observe sc)
                                (stream (default {| fetched := []; stream := [] |} (out r))))
                      c _ (Inv_turns _ ts _ (Inv_init _))) as [Hnd _ Hsent _]
    end.
    split; [exact Hnd|exact Hsent].
Qed.

Lemma Detections_stages `{Endpoints} fuel session sch ids call :
  Detections fuel session sch ids = Some call ->
  (groups call = None \/
   exists fetch, stage fetch (groupStage sch) = groups call) /\
  (tags call = None \/
   exists fetch, stage fetch (tagStage sch) = tags call).
Proof.
  unfold Detections. destruct (splitIDs ids [] []) as [tagIDs groupIDs].
  destruct groupIDs as [|g gs]; destruct tagIDs as [|t ts]; simpl.
  - intros [= <-]. simpl. by split; left.
  - destruct (stage _ (tagStage sch)) as [st|] eqn:Ht; [|done].
    intros [= <-]. simpl. split; [by left|]. right. eexists. exact Ht.
  - destruct (stage _ (groupStage sch)) as [st|] eqn:Hg; [|done].
    intros [= <-]. simpl. split; [|by left]. right. eexists. exact Hg.
  - destruct (stage _ (groupStage sch)) as [st|] eqn:Hg; [|done]. simpl.
    destruct (stage _ (tagStage sch)) as [st'|] eqn:Ht; [|done].
    intros [= <-]. simpl. split; right; eexists; [exact Hg|exact Ht].
Qed.

Lemma stageEvents_unique sc (o : option Stage) :
  o = None \/ (exists fetch, stage fetch sc = o) ->
  NoDup (key <$> stageEvents o) /\
  forall e, e ∈ stageEvents o ->
            exists st, o = Some st /\ host e ∈ scheduled st /\
                       detection e ∈ qualys.Detections (host e).
Proof.
  intros [->|[f Hf]].
  - split; [constructor|]. intros e He. by apply elem_of_nil in He.
  - destruct o as [st|]; simpl.
    + apply stage_events in Hf as [Hnd Hin]. split; [done|].
      intros e He. exists st. split; [done|]. by apply Hin.
    + split; [constructor|]. intros e He. by apply elem_of_nil in He.
Qed.

Lemma NoDup_fmap_occurrences {A B} `{EqDecision B} (f : A -> B) (l : list A) k :
  NoDup (f <$> l) -> (length (filter (fun a => f a = k) l) <= 1)%nat.
Proof.
  induction l as [|a l IH]; [simpl; lia|].
  rewrite fmap_cons, NoDup_cons. intros [Hni Hnd].
  rewrite filter_cons. case_decide as Hk; [|by apply IH].
  simpl. assert (filter (fun a0 => f a0 = k) l = []) as ->; [|simpl; lia].
  destruct (filter (fun a0 => f a0 = k) l) as [|b bs] eqn:Hf; [done|].
  assert (b ∈ filter (fun a0 => f a0 = k) l) as [Hfb Hb]%list_elem_of_filter
      by (rewrite Hf; apply list_elem_of_here).
  destruct Hni. rewrite Hk, <-Hfb. by apply list_elem_of_fmap_2.
Qed.

(** C1, as amended: in every call of [Detections] the events sent by the
    group-ID stage have pairwise distinct identity keys, and so have the
    events sent by the tag stage; every event pairs a host record for which
    a unit of work was started with one of its detections. The two stages
    keep separate seen-sets, so on the channel of the call a key occurs at
    most twice, once per stage. [pushDetectionsOnChannel] keeps no seen-set:
    when it is not cancelled it sends one event for every detection of every
    host of its input, in order. *)
Theorem events_unique_within_each_stage `{Endpoints}
    (fuel : nat) (session : QsSession) (sch : Schedule) (ids : list string)
    (call : Call) :
  Detections fuel session sch ids = Some call ->
  NoDup (key <$> stageEvents (groups call)) /\
  NoDup (key <$> stageEvents (tags call)) /\
  (forall k, (length (filter (fun e => key e = k) (detections call)) <= 2)%nat) /\
  (forall e, e ∈ detections call ->
             exists st, (groups call = Some st \/ tags call = Some st) /\
                        host e ∈ scheduled st /\
                        detection e ∈ qualys.Detections (host e)) /\
  (forall `{domain.Statuses} output deadHostIPToProof,
      pushDetectionsOnChannel None output deadHostIPToProof
      = (expand deadHostIPToProof (Hosts output), false)).
Proof.
  intros [Hg Ht]%Detections_stages.
  apply stageEvents_unique in Hg as [Hg Hge], Ht as [Ht Hte].
  split_and!; [done|done|..].
  - intros k. unfold detections. rewrite filter_app, length_app.
    pose proof (NoDup_fmap_occurrences key _ k Hg).
    pose proof (NoDup_fmap_occurrences key _ k Ht). lia.
  - intros e [He|He]%elem_of_app.
    + destruct (Hge e He) as (st & ? & ? & ?). exists st. auto.
    + destruct (Hte e He) as (st & ? & ? & ?). exists st. auto.
  - intros S output m. unfold pushDetectionsOnChannel. by rewrite pushHosts_limit.
Qed.

End fan_out.

Lemma events_unique_within_each_stage_witness :
  fixtures.crossRun = Some fixtures.crossCall /\
  NoDup (connector.key <$> connector.stageEvents (connector.groups fixtures.crossCall)) /\
  NoDup (connector.key <$> connector.stageEvents (connector.tags fixtures.crossCall)).
Proof.
  assert (fixtures.crossRun = Some fixtures.crossCall) as Hrun by reflexivity.
  split; [exact Hrun|].
  destruct (@events_unique_within_each_stage fixtures.endpoints _ _ _ _ _ Hrun)
    as (Hg & Ht & _).
  split; [exact Hg|exact Ht].
Defined.

(** C1, as stated, fails. On the scan-results path host 7 reports
    vulnerability 100 twice and both events are sent. In a call of
    [Detections] for an asset group and a tag that both cover host 8, the
    events of host 8 are sent once by each stage. *)
Lemma events_unique_counterexample :
  connector.key <$> (@connector.pushDetectionsOnChannel fixtures.statuses None
                       fixtures.scan7 ∅).1
  = [(7, 100); (7, 100)] /\
  fixtures.crossRun = Some fixtures.crossCall /\
  connector.key <$> connector.detections fixtures.crossCall
  = [(8, 100); (8, 200); (7, 100); (8, 100); (8, 200)] /\
  ~ NoDup [(7, 100); (7, 100)] /\
  ~ NoDup [(8, 100); (8, 200); (7, 100); (8, 100); (8, 200)].
Proof.
  split_and!; [reflexivity..| |].
  - intros Hnd. apply (bool_decide_pack _) in Hnd. by vm_compute in Hnd.
  - intros Hnd. apply (bool_decide_pack _) in Hnd. by vm_compute in Hnd.
Qed.

(* ===================================================================== *)
(** * The pagination run *)
(* ===================================================================== *)

Section pagination.
Import qualys connector spec.

Lemma pages_chain fuel s ps p fs run :
  pages fuel s ps p fs = Some run -> Chain s fs p (fetched run).
Proof.
  revert ps p run. induction fuel as [|fuel IH]; intros ps p run; [done|].
  cbn [pages].
  destruct (post s {| path := p; fields := fs |}) as [e|o] eqn:Hpost.
  - intros [= <-]. by eapply chain_failed.
  - destruct (Warning o) as [w|] eqn:Hw.
    + destruct (pages fuel s (tail ps) (URL w) fs) as [child|] eqn:Hc; [|done].
      intros [= <-]. simpl. eapply chain_next; [done..|]. by eapply IH.
    + intros [= <-]. by eapply chain_last.
Qed.

Lemma chain_pages s fs p reqs :
  Chain s fs p reqs ->
  forall fuel ps, (length reqs <= fuel)%nat ->
    exists run, pages fuel s ps p fs = Some run /\ fetched run = reqs.
Proof.
  induction 1 as [p e Hpost|p o Hpost Hw|p o w rest Hpost Hw Hrest IH];
    intros [|fuel] ps Hfuel; simpl in Hfuel; try lia; cbn [pages]; rewrite Hpost.
  - by eexists.
  - rewrite Hw. by eexists.
  - rewrite Hw. destruct (IH fuel (tail ps)) as (child & -> & <-); [lia|].
    by eexists.
Qed.

Lemma chain_head s fs p reqs :
  Chain s fs p reqs -> reqs !! 0%nat = Some {| path := p; fields := fs |}.
Proof. by destruct 1. Qed.

Lemma chain_positions s fs p reqs :
  Chain s fs p reqs ->
  forall i req, reqs !! i = Some req ->
    match post s req with
    | Returned o =>
        match Warning o with
        | Some w => reqs !! S i = Some {| path := URL w; fields := fs |}
        | None => length reqs = S i
        end
    | Failed _ => length reqs = S i
    end.
Proof.
  induction 1 as [p e Hpost|p o Hpost Hw|p o w rest Hpost Hw Hrest IH];
    intros [|i] req Hi; simpl in Hi; try done.
  - injection Hi as <-. by rewrite Hpost.
  - injection Hi as <-. by rewrite Hpost, Hw.
  - injection Hi as <-. rewrite Hpost, Hw. simpl. by apply chain_head in Hrest.
  - specialize (IH i req Hi). destruct (post s req) as [e'|o']; simpl; [lia|].
    destruct (Warning o'); [done|]. simpl. lia.
Qed.

Lemma chain_fields s fs p reqs :
  Chain s fs p reqs -> forall req, req ∈ reqs -> fields req = fs.
Proof.
  induction 1; intros req Hin.
  - by apply list_elem_of_singleton in Hin as ->.
  - by apply list_elem_of_singleton in Hin as ->.
  - apply elem_of_cons in Hin as [->|Hin]; [done|auto].
Qed.

Lemma pages_fuel_sched fuel s ps ps' p fs run :
  pages fuel s ps p fs = Some run ->
  exists run', pages fuel s ps' p fs = Some run' /\ fetched run' = fetched run.
Proof.
  intros Hrun. apply chain_pages with (fuel := fuel) (ps := ps').
  - by eapply pages_chain.
  - clear ps'. revert ps p run Hrun.
    induction fuel as [|fuel IH]; intros ps p run; [done|]. cbn [pages].
    destruct (post s _) as [e|o]; [by intros [= <-]; simpl; lia|].
    destruct (Warning o) as [w|]; [|by intros [= <-]; simpl; lia].
    destruct (pages fuel s (tail ps) (URL w) fs) as [child|] eqn:Hc; [|done].
    intros [= <-]. simpl. apply IH in Hc. lia.
Qed.

(** C5: when the chain of pages that the service serves from [p] is finite
    and the bound on the number of pages is large enough, the run of
    [getHostDetectionPostData] ends and issues exactly the requests of the
    chain, the first one at [p]. After a page that carries a continuation
    descriptor the next request, and only that one, is at the URL of the
    descriptor, whatever the number of host records of the page; after a
    page without a descriptor, and after a failed fetch, no further request
    is issued. *)
Theorem follow_up_fetch_iff_continuation
    (s : Session) (fs : gmap string string) (p : string)
    (reqs : list Request) (fuel : nat) (ps : list PageSched) :
  Chain s fs p reqs ->
  (length reqs <= fuel)%nat ->
  exists res run,
    getHostDetectionPostData fuel s ps p fs = Some res /\
    out res = Some run /\
    fetched run = reqs /\
    reqs !! 0%nat = Some {| path := p; fields := fs |} /\
    forall i req, reqs !! i = Some req ->
      match post s req with
      | Returned o =>
          match Warning o with
          | Some w => reqs !! S i = Some {| path := URL w; fields := fs |}
          | None => length reqs = S i
          end
      | Failed _ => length reqs = S i
      end.
Proof.
  intros Hchain Hfuel.
  destruct (chain_pages _ _ _ _ Hchain fuel ps Hfuel) as (run & Hrun & Hf).
  unfold getHostDetectionPostData. rewrite Hrun.
  destruct (returned s _ _) as [total e]. eexists _, run.
  split_and!; [done|done|done|by eapply chain_head|by eapply chain_positions].
Qed.

End pagination.

Lemma service_chain :
  spec.Chain (connector.apiSession (fixtures.session fixtures.service))
    (qualys.groupFields ["ag1"] 0) fixtures.base
    [fixtures.groupRequest; fixtures.page2Request].
Proof.
  eapply (spec.chain_next _ _ _
            {| qualys.Hosts := [];
               qualys.Warning := Some {| qualys.URL := "page2" |} |});
    [reflexivity|reflexivity|].
  eapply (spec.chain_last _ _ _
            {| qualys.Hosts := [fixtures.host8; fixtures.host7];
               qualys.Warning := None |}); reflexivity.
Defined.

Lemma follow_up_fetch_iff_continuation_witness :
  spec.Chain (connector.apiSession (fixtures.session fixtures.service))
    (qualys.groupFields ["ag1"] 0) fixtures.base
    [fixtures.groupRequest; fixtures.page2Request] /\
  (length [fixtures.groupRequest; fixtures.page2Request] <= 3)%nat /\
  exists res run,
    qualys.getHostDetectionPostData 3
      (connector.apiSession (fixtures.session fixtures.service)) []
      fixtures.base (qualys.groupFields ["ag1"] 0) = Some res /\
    qualys.out res = Some run /\
    qualys.fetched run = [fixtures.groupRequest; fixtures.page2Request].
Proof.
  split; [exact service_chain|]. split; [simpl; lia|].
  destruct (follow_up_fetch_iff_continuation
              (connector.apiSession (fixtures.session fixtures.service))
              (qualys.groupFields ["ag1"] 0) fixtures.base
              [fixtures.groupRequest; fixtures.page2Request] 3 []
              service_chain ltac:(simpl; lia))
    as (res & run & Hres & Hout & Hf & _).
  by exists res, run.
Defined.

(* ===================================================================== *)
(** * The calls of the API session *)
(* ===================================================================== *)

Section session_calls.
Import qualys connector spec.
Context `{Endpoints}.

Lemma first_fetch_failure fuel s ps p fs e :
  post s {| path := p; fields := fs |} = Failed e ->
  getHostDetectionPostData (S fuel) s ps p fs =
    Some {| out := Some {| fetched := [{| path := p; fields := fs |}]; stream := [] |};
            totalHosts := 0;
            err := match race (sched_at ps) with
                   | ReturnFirst => None
                   | PostFirst => Some e
                   end |}.
Proof.
  intros Hpost. unfold getHostDetectionPostData, returned. cbn [pages].
  rewrite Hpost. by destruct (race (sched_at ps)).
Qed.

(** C2: when the first fetch of a run fails, no record is delivered on the
    channel, but the error that the caller receives depends on the order of
    the [return] statement and the goroutine: [GetHostDetections] returns a
    nil error whenever the [return] statement runs first. *)
Theorem first_fetch_error_lost_when_return_runs_first
    (fuel : nat) (s : Session) (ps : list PageSched)
    (g : string) (groups : list string) (kernelFilterFlag : Z) (e : error) :
  post s {| path := Address s +:+ qsAssetVMHost;
            fields := groupFields (g :: groups) kernelFilterFlag |} = Failed e ->
  race (sched_at ps) = ReturnFirst ->
  exists res run,
    GetHostDetections (S fuel) s ps (g :: groups) kernelFilterFlag = Some res /\
    out res = Some run /\ stream run = [] /\ err res = None.
Proof.
  intros Hpost Hrace. unfold GetHostDetections.
  rewrite (first_fetch_failure _ _ _ _ _ e Hpost), Hrace.
  by eexists _, _.
Qed.

(** C8: [GetHostDetections] and [GetTagDetections] reject an empty list
    with an error and without a post call, but [GetHostSpecificDetections]
    returns a nil output and a nil error for an empty IP list. *)
Theorem empty_ip_list_returns_no_error
    (fuel : nat) (s : Session) (ps : list PageSched)
    (groups : list string) (kernelFilterFlag : Z) :
  GetHostSpecificDetections s [] groups kernelFilterFlag
  = {| issued := []; output := None; specificErr := None |} /\
  GetHostDetections fuel s ps [] kernelFilterFlag
  = Some {| out := None; totalHosts := 0;
            err := Some "empty group list passed to GetHostDetections" |} /\
  GetTagDetections fuel s ps [] kernelFilterFlag
  = Some {| out := None; totalHosts := 0;
            err := Some "empty group list passed to GetHostDetections" |}.
Proof. done. Qed.

Lemma tag_set_by_lookup t rest k :
  tagFields (t :: rest) k !! "tag_set_by"
  = Some (match strconv.Atoi t with Some _ => "id" | None => "name" end).
Proof.
  unfold tagFields. destruct (strconv.Atoi t);
    repeat (rewrite lookup_insert_ne by done); by rewrite lookup_insert_eq.
Qed.

(** C10: every request that [GetTagDetections] issues for a non-empty tag
    list, and it issues at least one, carries the field tag_set_by, whose
    value is "id" when the first tag parses as an integer and "name" when
    it does not, whatever the other tags are. *)
Theorem tag_set_by_decided_by_first_tag
    (fuel : nat) (s : Session) (ps : list PageSched)
    (t : string) (rest : list string) (kernelFilterFlag : Z)
    (res : Results) (run : Run) :
  GetTagDetections fuel s ps (t :: rest) kernelFilterFlag = Some res ->
  out res = Some run ->
  fetched run <> [] /\
  forall req, req ∈ fetched run ->
    fields req !! "tag_set_by"
    = Some (match strconv.Atoi t with Some _ => "id" | None => "name" end).
Proof.
  unfold GetTagDetections, getHostDetectionPostData.
  destruct (pages _ _ _ _ _) as [run'|] eqn:Hrun; [|done].
  destruct (returned _ _ _) as [total e]. intros [= <-]. simpl. intros [= ->].
  apply pages_chain in Hrun. split.
  - apply chain_head in Hrun. by destruct (fetched run).
  - intros req Hin. rewrite (chain_fields _ _ _ _ Hrun req Hin).
    apply tag_set_by_lookup.
Qed.

End session_calls.

(** C2 at a service that is down: the first fetch fails, the channel is
    closed without a record, and the error returned is nil. *)
Lemma first_fetch_error_lost_when_return_runs_first_witness :
  qualys.post (connector.apiSession (fixtures.session fixtures.down))
    {| qualys.path := fixtures.base;
       qualys.fields := qualys.groupFields ["1"] 0 |}
  = qualys.Failed "connection refused" /\
  exists res run,
    @qualys.GetHostDetections fixtures.endpoints 1
      (connector.apiSession (fixtures.session fixtures.down)) [] ["1"] 0
    = Some res /\
    qualys.out res = Some run /\ qualys.stream run = [] /\
    qualys.err res = None.
Proof.
  split; [reflexivity|].
  apply (@first_fetch_error_lost_when_return_runs_first fixtures.endpoints 0
           (connector.apiSession (fixtures.session fixtures.down)) []
           "1" [] 0 "connection refused"); reflexivity.
Defined.

Lemma tag_set_by_decided_by_first_tag_witness :
  exists res run,
    @qualys.GetTagDetections fixtures.endpoints 2
      (connector.apiSession (fixtures.session fixtures.service)) []
      ["123"; "prod"] 0 = Some res /\
    qualys.out res = Some run /\
    qualys.fetched run = [fixtures.tagRequest] /\
    qualys.fields fixtures.tagRequest !! "tag_set_by" = Some "id".
Proof.
  eexists _, _. split; [reflexivity|]. split; [reflexivity|].
  split; [reflexivity|].
  refine (proj2 (@tag_set_by_decided_by_first_tag fixtures.endpoints 2
                   (connector.apiSession (fixtures.session fixtures.service)) []
                   "123" ["prod"] 0 _ _ eq_refl eq_refl) fixtures.tagRequest _).
  apply list_elem_of_here.
Defined.

(* ===================================================================== *)
(** * Cancellation in [Detections] *)
(* ===================================================================== *)

Section cancellation.
Import qualys connector spec.
Context `{Endpoints}.

Lemma getHostDetectionPostData_steady fuel s p fs :
  Steady (fun ps => getHostDetectionPostData fuel s ps p fs).
Proof.
  intros ps ps' r. unfold getHostDetectionPostData.
  destruct (pages fuel s ps p fs) as [run|] eqn:Hrun; [|done].
  destruct (pages_fuel_sched _ _ _ ps' _ _ _ Hrun) as (run' & -> & Hf).
  destruct (returned s _ _) as [total e]. intros [= <-].
  destruct (returned s _ _) as [total' e']. eexists. split; [done|].
  simpl. by rewrite Hf.
Qed.

Lemma GetHostDetections_steady fuel s groups k :
  Steady (fun ps => GetHostDetections fuel s ps groups k).
Proof.
  unfold GetHostDetections. destruct groups.
  - intros ps ps' r [= <-]. by eexists.
  - apply getHostDetectionPostData_steady.
Qed.

Lemma GetTagDetections_steady fuel s tags k :
  Steady (fun ps => GetTagDetections fuel s ps tags k).
Proof.
  unfold GetTagDetections. destruct tags.
  - intros ps ps' r [= <-]. by eexists.
  - apply getHostDetectionPostData_steady.
Qed.

Lemma stage_requests_steady fetch sc sc' st :
  Steady fetch -> stage fetch sc = Some st ->
  exists st', stage fetch sc' = Some st' /\ requests st' = requests st.
Proof.
  intros Hsteady. unfold stage.
  destruct (fetch (paging sc)) as [r|] eqn:Hr; [|done].
  destruct (Hsteady _ (paging sc') _ Hr) as (r' & -> & Hf).
  assert (fetched (default {| fetched := []; stream := [] |} (out r'))
          = fetched (default {| fetched := []; stream := [] |} (out r))) as Hreq.
  { destruct (out r'), (out r); simpl in *; congruence. }
  destruct (err r); intros [= <-]; destruct (err r'); eexists; split; done.
Qed.

Lemma stage_dispatch fetch sc st n :
  stage fetch sc = Some st -> observe sc = Some n ->
  exists k, (k <= n)%nat /\ scheduled st = take k (delivered st).
Proof.
  unfold stage. destruct (fetch (paging sc)) as [r|]; [|done].
  intros Hst Hn. destruct (err r); injection Hst as <-; simpl.
  - exists 0%nat. split; [lia|]. by rewrite take_0.
  - exists n. split; [lia|]. by rewrite Hn.
Qed.

Lemma stage_first_request fetch sc st fuel s p fs :
  (forall ps, fetch ps = getHostDetectionPostData fuel s ps p fs) ->
  stage fetch sc = Some st ->
  requests st !! 0%nat = Some {| path := p; fields := fs |}.
Proof.
  intros Hfetch. unfold stage. rewrite Hfetch. unfold getHostDetectionPostData.
  destruct (pages _ _ _ _ _) as [run|] eqn:Hrun; [|done].
  destruct (returned s _ _) as [total e]. simpl.
  apply pages_chain, chain_head in Hrun.
  destruct e; intros [= <-]; done.
Qed.

Lemma turn_cancelled_silent i st : sentOut (turn (i, true) st) = sentOut st.
Proof.
  unfold turn. simpl. destruct (units st !! i) as [[h [|d rest]]|]; try done.
  unfold pushCombo. by case_decide.
Qed.

Lemma wait_cancelled_silent st : sentOut (wait true st) = sentOut st.
Proof.
  unfold wait. generalize (seq 0 (length (units st))). intros idx.
  revert st. induction idx as [|i idx IH]; intros st; [done|].
  simpl. rewrite IH. unfold finishUnit.
  destruct (units st !! i) as [[h ds]|]; [|done].
  induction (length ds) as [|n IHn]; [done|].
  simpl. by rewrite turn_cancelled_silent.
Qed.

(** C7, as amended: once the dispatch loop of a stage of [Detections] has
    taken the cancellation case it starts no further unit of work, so the
    units it started are those of the host records received before, and a
    unit of work that observes cancellation sends no further event. The
    requests are not gated by the cancellation signal: the session calls
    take no context, so each stage issues the same requests whatever the
    moment of cancellation, and the request of the tag stage is issued
    whenever an identifier is tag-style, also after the group-ID stage has
    observed cancellation. *)
Theorem cancellation_stops_dispatch_not_fetches
    (fuel : nat) (session : QsSession) (sch : Schedule) (ids : list string)
    (call : Call) :
  Detections fuel session sch ids = Some call ->
  (forall st n,
      groups call = Some st -> observe (groupStage sch) = Some n ->
      exists k, (k <= n)%nat /\ scheduled st = take k (delivered st)) /\
  (forall st n,
      tags call = Some st -> observe (tagStage sch) = Some n ->
      exists k, (k <= n)%nat /\ scheduled st = take k (delivered st)) /\
  (forall i st, sentOut (turn (i, true) st) = sentOut st) /\
  (forall st, sentOut (wait true st) = sentOut st) /\
  (forall sch',
      exists call',
        Detections fuel session sch' ids = Some call' /\
        stageRequests (groups call') = stageRequests (groups call) /\
        stageRequests (tags call') = stageRequests (tags call)) /\
  (forall t tagIDs groupIDs,
      splitIDs ids [] [] = (t :: tagIDs, groupIDs) ->
      exists st,
        tags call = Some st /\
        requests st !! 0%nat
        = Some {| path := Address (apiSession session) +:+ qsAssetVMHost;
                  fields := tagFields (t :: tagIDs) (KernelFilter session) |}).
Proof.
  intros Hcall. split_and!.
  - intros st n Hst Hn. apply Detections_stages in Hcall as [[Hg|[f Hg]] _];
      [congruence|]. rewrite Hst in Hg. by eapply stage_dispatch.
  - intros st n Hst Hn. apply Detections_stages in Hcall as [_ [Ht|[f Ht]]];
      [congruence|]. rewrite Hst in Ht. by eapply stage_dispatch.
  - apply turn_cancelled_silent.
  - apply wait_cancelled_silent.
  - intros sch'. revert Hcall. unfold Detections.
    destruct (splitIDs ids [] []) as [tagIDs groupIDs].
    destruct groupIDs as [|g gs]; destruct tagIDs as [|t ts]; simpl.
    + intros [= <-]. by eexists.
    + destruct (stage _ (tagStage sch)) as [st|] eqn:Ht; [|done].
      intros [= <-].
      destruct (stage_requests_steady _ _ (tagStage sch') _
                  (getHostDetectionPostData_steady _ _ _ _) Ht) as (st' & -> & Hreq).
      by eexists.
    + destruct (stage _ (groupStage sch)) as [st|] eqn:Hg; [|done].
      intros [= <-].
      destruct (stage_requests_steady _ _ (groupStage sch') _
                  (getHostDetectionPostData_steady _ _ _ _) Hg) as (st' & -> & Hreq).
      by eexists.
    + destruct (stage _ (groupStage sch)) as [st|] eqn:Hg; [|done]. simpl.
      destruct (stage _ (tagStage sch)) as [st2|] eqn:Ht; [|done].
      intros [= <-].
      destruct (stage_requests_steady _ _ (groupStage sch') _
                  (getHostDetectionPostData_steady _ _ _ _) Hg) as (st' & -> & Hreq).
      destruct (stage_requests_steady _ _ (tagStage sch') _
                  (getHostDetectionPostData_steady _ _ _ _) Ht) as (st2' & -> & Hreq2).
      by eexists.
  - intros t tagIDs groupIDs Hsplit. revert Hcall. unfold Detections.
    rewrite Hsplit.
    destruct groupIDs as [|g gs]; simpl.
    + destruct (stage _ (tagStage sch)) as [st|] eqn:Ht; [|done].
      intros [= <-]. simpl. exists st. split; [done|].
      by eapply stage_first_request.
    + destruct (stage _ (groupStage sch)) as [st1|]; [|done]. simpl.
      destruct (stage _ (tagStage sch)) as [st|] eqn:Ht; [|done].
      intros [= <-]. simpl. exists st. split; [done|].
      by eapply stage_first_request.
Qed.

End cancellation.

Lemma cancellation_stops_dispatch_not_fetches_witness :
  fixtures.cancelledRun = Some fixtures.cancelledCall /\
  forall st n,
    connector.groups fixtures.cancelledCall = Some st ->
    connector.observe fixtures.cancelledAtOnce = Some n ->
    exists k, (k <= n)%nat /\
              connector.scheduled st = take k (connector.delivered st).
Proof.
  assert (fixtures.cancelledRun = Some fixtures.cancelledCall) as Hrun
      by reflexivity.
  split; [exact Hrun|].
  exact (proj1 (@cancellation_stops_dispatch_not_fetches fixtures.endpoints
                  _ _ _ _ _ Hrun)).
Defined.

(** C7, as stated, fails: the dispatch loop of the group-ID stage takes the
    cancellation case before it receives a host record, so no unit of work
    is started; the pagination run of that stage still fetches both pages,
    and the request of the tag stage is issued afterwards. *)
Lemma cancellation_fetch_counterexample :
  fixtures.cancelledRun = Some fixtures.cancelledCall /\
  connector.observe fixtures.cancelledAtOnce = Some 0%nat /\
  connector.scheduled <$> connector.groups fixtures.cancelledCall = Some [] /\
  connector.stageRequests (connector.groups fixtures.cancelledCall)
  = [fixtures.groupRequest; fixtures.page2Request] /\
  connector.stageRequests (connector.tags fixtures.cancelledCall)
  = [ {| qualys.path := fixtures.base;
         qualys.fields := qualys.tagFields ["prod"] 0 |} ].
Proof. split_and!; reflexivity. Qed.

(* ===================================================================== *)
(** * What a pagination run delivers *)
(* ===================================================================== *)

Section delivery.
Import qualys connector spec.









End delivery.



(* ===================================================================== *)
(** * The requests of the session calls *)
(* ===================================================================== *)

Section descriptors.
Import qualys connector spec.
Context `{Endpoints}.

Local Ltac field :=
  repeat first [ rewrite lookup_insert_eq | rewrite lookup_insert_ne by done ];
  rewrite ?lookup_empty; try done.

Lemma run_requests fuel s ps p fs res run req :
  getHostDetectionPostData fuel s ps p fs = Some res ->
  out res = Some run -> req ∈ fetched run -> fields req = fs.
Proof.
  unfold getHostDetectionPostData.
  destruct (pages fuel s ps p fs) as [run'|] eqn:Hrun; [|done].
  destruct (returned s _ _) as [total e]. intros [= <-]. simpl. intros [= <-].
  apply pages_chain in Hrun. by eapply chain_fields.
Qed.

(** X3: every request of a run of [GetHostDetections], the first page and
    every follow-up page alike, carries the same descriptor: the asset
    groups joined with commas, the kernel filter flag in decimal, a page
    size of 2500, the status list that includes Fixed, and no tag
    selector. *)
Theorem group_requests_carry_the_descriptor
    (fuel : nat) (s : Session) (ps : list PageSched) (g : string)
    (groups : list string) (kernelFilterFlag : Z) (res : Results) (run : Run)
    (req : Request) :
  GetHostDetections fuel s ps (g :: groups) kernelFilterFlag = Some res ->
  out res = Some run ->
  req ∈ fetched run ->
  fields req !! "ag_ids" = Some (strings.Join (g :: groups) ",") /\
  fields req !! "arf_kernel_filter" = Some (strconv.Itoa kernelFilterFlag) /\
  fields req !! "truncation_limit" = Some "2500" /\
  fields req !! "status" = Some "New,Active,Re-Opened,Fixed" /\
  fields req !! "use_tags" = None /\
  fields req !! "tag_set_include" = None.
Proof.
  unfold GetHostDetections. intros Hres Hout Hin.
  rewrite (run_requests _ _ _ _ _ _ _ _ Hres Hout Hin).
  unfold groupFields. split_and!; field.
Qed.

(** X4: every request of a run of [GetTagDetections] carries the tags joined
    with commas as the set to include, the selector "all", the tag switch,
    the kernel filter flag in decimal and no page limit, and never an asset
    group selector. *)
Theorem tag_requests_carry_the_descriptor
    (fuel : nat) (s : Session) (ps : list PageSched) (t : string)
    (tags : list string) (kernelFilterFlag : Z) (res : Results) (run : Run)
    (req : Request) :
  GetTagDetections fuel s ps (t :: tags) kernelFilterFlag = Some res ->
  out res = Some run ->
  req ∈ fetched run ->
  fields req !! "tag_set_include" = Some (strings.Join (t :: tags) ",") /\
  fields req !! "tag_include_selector" = Some "all" /\
  fields req !! "use_tags" = Some "1" /\
  fields req !! "arf_kernel_filter" = Some (strconv.Itoa kernelFilterFlag) /\
  fields req !! "truncation_limit" = Some "0" /\
  fields req !! "ag_ids" = None.
Proof.
  unfold GetTagDetections. intros Hres Hout Hin.
  rewrite (run_requests _ _ _ _ _ _ _ _ Hres Hout Hin).
  unfold tagFields. destruct (strconv.Atoi t); split_and!; field.
Qed.

(** X5: for a non-empty IP list [GetHostSpecificDetections] issues exactly
    one request, with the addresses and the groups joined with commas and
    the kernel filter flag in decimal; it returns a non-nil output, and
    its error is the error of that one fetch, nil when the fetch
    succeeded. *)
Theorem specific_detections_one_request
    (s : Session) (a : string) (ip groups : list string)
    (kernelFilterFlag : Z) :
  exists req,
    issued (GetHostSpecificDetections s (a :: ip) groups kernelFilterFlag) = [req] /\
    path req = Address s +:+ qsAssetVMHost /\
    fields req !! "ips" = Some (strings.Join (a :: ip) ",") /\
    fields req !! "ag_ids" = Some (strings.Join groups ",") /\
    fields req !! "arf_kernel_filter" = Some (strconv.Itoa kernelFilterFlag) /\
    is_Some (output (GetHostSpecificDetections s (a :: ip) groups kernelFilterFlag)) /\
    (forall e,
        specificErr (GetHostSpecificDetections s (a :: ip) groups kernelFilterFlag)
        = Some e <-> post s req = Failed e) /\
    (forall o,
        post s req = Returned o ->
        output (GetHostSpecificDetections s (a :: ip) groups kernelFilterFlag)
        = Some o).
Proof.
  unfold GetHostSpecificDetections.
  set (req := {| path := Address s +:+ qsAssetVMHost;
                 fields := ipFields (a :: ip) groups kernelFilterFlag |}).
  exists req. destruct (post s req) as [e|o] eqn:Hpost; simpl;
    (split_and!; [done|done|unfold ipFields; field..|by eexists| |]).
  - intros e'. split; congruence.
  - done.
  - intros e'. split; congruence.
  - by intros o' [= <-].
Qed.

End descriptors.

Lemma group_requests_carry_the_descriptor_witness :
  @qualys.GetHostDetections fixtures.endpoints 2
    (connector.apiSession (fixtures.session fixtures.twoPages))
    fixtures.childFirst ["ag1"] 0
  = Some fixtures.twoPageResults /\
  fixtures.page2Request ∈ qualys.fetched fixtures.twoPageRun /\
  qualys.fields fixtures.page2Request !! "ag_ids" = Some "ag1" /\
  qualys.fields fixtures.page2Request !! "arf_kernel_filter" = Some "0".
Proof.
  assert (fixtures.page2Request ∈ qualys.fetched fixtures.twoPageRun) as Hin.
  { apply list_elem_of_further, list_elem_of_here. }
  split; [reflexivity|]. split; [exact Hin|].
  destruct (@group_requests_carry_the_descriptor fixtures.endpoints 2
              (connector.apiSession (fixtures.session fixtures.twoPages))
              fixtures.childFirst "ag1" [] 0 fixtures.twoPageResults
              fixtures.twoPageRun fixtures.page2Request
              eq_refl eq_refl Hin) as (Hag & Hk & _).
  split; [exact Hag|exact Hk].
Defined.

Lemma tag_requests_carry_the_descriptor_witness :
  exists res run,
    @qualys.GetTagDetections fixtures.endpoints 2
      (connector.apiSession (fixtures.session fixtures.service)) []
      ["123"; "prod"] 0 = Some res /\
    qualys.out res = Some run /\
    fixtures.tagRequest ∈ qualys.fetched run /\
    qualys.fields fixtures.tagRequest !! "tag_set_include" = Some "123,prod".
Proof.
  eexists _, _. split; [reflexivity|]. split; [reflexivity|].
  assert (fixtures.tagRequest ∈ [fixtures.tagRequest]) as Hin
      by apply list_elem_of_here.
  split; [exact Hin|].
  exact (proj1 (@tag_requests_carry_the_descriptor fixtures.endpoints 2
                  (connector.apiSession (fixtures.session fixtures.service)) []
                  "123" ["prod"] 0 _ _ fixtures.tagRequest
                  eq_refl eq_refl Hin)).
Defined.

(* ===================================================================== *)
(** * Further facts about the connector *)
(* ===================================================================== *)

Section connector_facts.
Import qualys connector spec.
Context `{Endpoints}.

(** X6: under cancellation [pushDetectionsOnChannel] sends a prefix of the
    events of its input, in order: as many events as channel operations went
    through before the cancellation case was taken. It returns true exactly
    when the cancellation cut the sending short, and false when every event
    was sent. *)
Theorem scan_events_stop_at_cancellation `{domain.Statuses}
    (ctx : Ctx) (output : QHostListDetectionOutput)
    (deadHostIPToProof : gmap string string) :
  (pushDetectionsOnChannel ctx output deadHostIPToProof).1
    `prefix_of` expand deadHostIPToProof (Hosts output) /\
  ((pushDetectionsOnChannel ctx output deadHostIPToProof).2 = false <->
   (pushDetectionsOnChannel ctx output deadHostIPToProof).1
   = expand deadHostIPToProof (Hosts output)) /\
  (forall n,
      ctx = Some n ->
      length (pushDetectionsOnChannel ctx output deadHostIPToProof).1
      = (n `min` length (expand deadHostIPToProof (Hosts output)))%nat).
Proof.
  unfold pushDetectionsOnChannel. rewrite pushHosts_limit. simpl.
  set (l := expand deadHostIPToProof (Hosts output)).
  destruct ctx as [n|]; simpl.
  - split_and!.
    + apply prefix_take.
    + rewrite bool_decide_eq_false. split.
      * intros Hn. apply take_ge. lia.
      * intros Heq Hlt. apply (f_equal length) in Heq.
        rewrite length_take in Heq. lia.
    + intros n' [= <-]. apply length_take.
  - split_and!; [done| |done]. split; done.
Qed.



(** X7: a stage of [Detections] runs exactly when its identifier list is not
    empty, so neither session call is ever made with an empty list. The
    group-ID stage, when it runs, first requests the asset groups of the
    split at the configured address. With no identifier at all the call
    sends no event. *)
Theorem stages_run_for_nonempty_lists
    (fuel : nat) (session : QsSession) (sch : Schedule) (ids : list string)
    (call : Call) (tagIDs groupIDs : list string) :
  Detections fuel session sch ids = Some call ->
  splitIDs ids [] [] = (tagIDs, groupIDs) ->
  (groups call = None <-> groupIDs = []) /\
  (tags call = None <-> tagIDs = []) /\
  (forall st,
      groups call = Some st ->
      requests st !! 0%nat
      = Some {| path := Address (apiSession session) +:+ qsAssetVMHost;
                fields := groupFields groupIDs (KernelFilter session) |}) /\
  (groupIDs = [] -> tagIDs = [] -> detections call = []).
Proof.
  unfold Detections. intros Hcall Hsplit. rewrite Hsplit in Hcall.
  destruct groupIDs as [|g gs]; destruct tagIDs as [|t ts]; simpl in Hcall.
  - injection Hcall as <-. by split_and!.
  - destruct (stage _ (tagStage sch)) as [st|] eqn:Ht; [|done].
    injection Hcall as <-. simpl. split_and!; try done.
  - destruct (stage _ (groupStage sch)) as [st|] eqn:Hg; [|done].
    injection Hcall as <-. simpl. split_and!; try done.
    intros st' [= <-]. by eapply stage_first_request.
  - destruct (stage _ (groupStage sch)) as [st|] eqn:Hg; [|done].
    simpl in Hcall.
    destruct (stage _ (tagStage sch)) as [st2|] eqn:Ht; [|done].
    injection Hcall as <-. simpl. split_and!; try done.
    intros st' [= <-]. by eapply stage_first_request.
Qed.


Lemma classified_lengths (cs : list (string + string)) :
  (length (omap tagOf cs) + length (omap groupOf cs) = length cs)%nat.
Proof.
  induction cs as [|[t|g] cs IH]; csimpl; [done|lia|lia].
Qed.

Lemma groups_sublist ids :
  omap groupOf (classify <$> ids) `sublist_of` ids.
Proof.
  induction ids as [|id ids IH]; csimpl; [done|].
  unfold classify at 1. destruct (0 <=? strings.Index id tagPrefix); simpl.
  - by apply sublist_cons.
  - by apply sublist_skip.
Qed.

(** X9: the split of the identifiers loses nothing: every identifier lands
    in exactly one of the two lists, and the group-style identifiers are
    passed on unchanged and in their order. *)
Theorem split_keeps_every_identifier (ids : list string) :
  (length (splitIDs ids [] []).1 + length (splitIDs ids [] []).2
   = length ids)%nat /\
  (splitIDs ids [] []).2 `sublist_of` ids /\
  (forall id, (forall pre post, id <> pre +:+ tagPrefix +:+ post) ->
              id ∈ ids -> id ∈ (splitIDs ids [] []).2).
Proof.
  rewrite splitIDs_classify. simpl. split_and!.
  - rewrite <-(length_fmap classify ids). apply classified_lengths.
  - apply groups_sublist.
  - intros id Habs Hin. apply list_elem_of_omap. exists (inr id).
    split; [|done]. apply list_elem_of_fmap. exists id. split; [|done].
    symmetry. apply Classified_classify. by constructor.
Qed.

End connector_facts.

Lemma stages_run_for_nonempty_lists_witness :
  fixtures.crossRun = Some fixtures.crossCall /\
  connector.splitIDs ["ag1"; "tag-prod"] [] [] = (["prod"], ["ag1"]) /\
  (connector.groups fixtures.crossCall = None <-> ["ag1"] = @nil string) /\
  (connector.tags fixtures.crossCall = None <-> ["prod"] = @nil string).
Proof.
  assert (fixtures.crossRun = Some fixtures.crossCall) as Hrun by reflexivity.
  assert (connector.splitIDs ["ag1"; "tag-prod"] [] [] = (["prod"], ["ag1"]))
    as Hsplit by reflexivity.
  split; [exact Hrun|]. split; [exact Hsplit|].
  destruct (@stages_run_for_nonempty_lists fixtures.endpoints _ _ _ _ _ _ _
              Hrun Hsplit) as (Hg & Ht & _).
  split; [exact Hg|exact Ht].
Defined.


(* ===================================================================== *)
(** * The scan-results path of [ScanResults] *)
(* ===================================================================== *)

Section split_join.
Import strings.

Lemma splitFrom_nonempty skip s sep : splitFrom skip s sep <> [].
Proof.
  revert skip. induction s as [|c s IH]; intros skip; [done|].
  simpl. destruct skip as [|k]; [|apply IH].
  destruct (HasPrefix (String c s) sep); [done|].
  by destruct (splitFrom 0 s sep).
Qed.

Lemma Join_cons_cons f g fs sep :
  Join (f :: g :: fs) sep = f +:+ sep +:+ Join (g :: fs) sep.
Proof. done. Qed.

Lemma Join_String c f fs sep :
  Join (String c f :: fs) sep = String c (Join (f :: fs) sep).
Proof. destruct fs; [done|]. by rewrite !Join_cons_cons, append_cons. Qed.

Lemma drop_empty k : drop k EmptyString = EmptyString.
Proof. by destruct k. Qed.

Lemma Join_splitFrom skip s sep :
  sep <> EmptyString -> Join (splitFrom skip s sep) sep = drop skip s.
Proof.
  intros Hsep. revert skip. induction s as [|c s IH]; intros skip.
  - by rewrite drop_empty.
  - cbn [splitFrom]. destruct skip as [|k]; [|by rewrite IH].
    destruct (HasPrefix (String c s) sep) eqn:Hp.
    + apply HasPrefix_inv in Hp as [r Hr].
      destruct (splitFrom (String.length sep - 1) s sep) as [|g gs] eqn:Hs;
        [by apply splitFrom_nonempty in Hs|].
      rewrite Join_cons_cons, <-Hs, IH, append_nil_l. simpl.
      destruct sep as [|b sep]; [done|]. rewrite append_cons in Hr.
      injection Hr as -> ->. simpl. by rewrite Nat.sub_0_r, drop_append.
    + destruct (splitFrom 0 s sep) as [|g gs] eqn:Hs;
        [by apply splitFrom_nonempty in Hs|].
      rewrite Join_String, <-Hs, IH. done.
Qed.

Lemma Join_Split s sep : sep <> EmptyString -> Join (Split s sep) sep = s.
Proof. intros Hsep. unfold Split. by rewrite Join_splitFrom. Qed.

Lemma replaceFrom_absent budget s old new :
  (forall pre post, s <> pre +:+ old +:+ post) ->
  replaceFrom 0 budget s old new = s.
Proof.
  induction s as [|c s IH]; intros Habs; [done|].
  cbn [replaceFrom]. destruct budget as [[|n]|]; [done| |].
  - destruct (HasPrefix (String c s) old) eqn:Hp.
    + apply HasPrefix_inv in Hp as [r Hr]. by destruct (Habs EmptyString r).
    + rewrite IH; [done|]. intros pre post ->.
      by destruct (Habs (String c pre) post).
  - destruct (HasPrefix (String c s) old) eqn:Hp.
    + apply HasPrefix_inv in Hp as [r Hr]. by destruct (Habs EmptyString r).
    + rewrite IH; [done|]. intros pre post ->.
      by destruct (Habs (String c pre) post).
Qed.

End split_join.

Section scan_results_path.
Import qualys connector spec scanresults.
Context `{Endpoints}.

Local Ltac field :=
  repeat first [ rewrite lookup_insert_eq | rewrite lookup_insert_ne by done ];
  rewrite ?lookup_empty; try done.

(** X10: the IP list that [ScanResults] derives from the target of a scan is
    never empty, so [GetHostSpecificDetections] always issues its one
    request for it, also for an empty target; the addresses arrive in the
    request joined as they were in the target, with every ", " turned into
    ",", and unchanged when the target has no ", ". *)
Theorem scan_target_reaches_the_request
    (s : Session) (target : string) (groups : list string)
    (kernelFilterFlag : Z) :
  scanIPs target <> [] /\
  exists req,
    issued (GetHostSpecificDetections s (scanIPs target) groups kernelFilterFlag)
    = [req] /\
    fields req !! "ips" = Some (strings.Replace target ", " "," (-1)) /\
    ((forall pre post, target <> pre +:+ ", " +:+ post) ->
     fields req !! "ips" = Some target).
Proof.
  assert (strings.Join (scanIPs target) "," = strings.Replace target ", " "," (-1))
    as Hjoin by (by apply Join_Split).
  split; [apply splitFrom_nonempty|].
  destruct (scanIPs target) as [|a ip] eqn:Hips;
    [by apply splitFrom_nonempty in Hips|].
  unfold GetHostSpecificDetections.
  set (req := {| path := Address s +:+ qsAssetVMHost;
                 fields := ipFields (a :: ip) groups kernelFilterFlag |}).
  assert (fields req !! "ips" = Some (strings.Replace target ", " "," (-1)))
    as Hfield by (rewrite <-Hjoin; unfold req, ipFields; simpl; field).
  exists req. split; [by destruct (post s req)|]. split; [done|].
  intros Habs. rewrite Hfield. f_equal. by apply replaceFrom_absent.
Qed.

Lemma sendDeadHosts_pairs ctx entries :
  (fun d => (Key d, Value d)) <$> sendDeadHosts ctx entries = limit ctx entries.
Proof.
  revert ctx. induction entries as [|[i p] entries IH]; intros ctx.
  - destruct ctx as [n|]; [|done]. simpl. by rewrite take_nil.
  - cbn [sendDeadHosts]. destruct ctx as [[|n]|]; [done| |].
    + rewrite fmap_cons, IH. done.
    + rewrite fmap_cons, IH. done.
Qed.

(** X11: the dead-host goroutine of [ScanResults] sends one pair per entry
    of the dead-host proof map, and [Key] and [Value] give back the address
    and the proof text: without cancellation the pairs received rebuild the
    map, and under cancellation every pair received is an entry of it. *)
Theorem dead_hosts_round_trip
    (deadHostIPToProof : gmap string string) (entries : list (string * string))
    (ctx : Ctx) :
  entries ≡ₚ map_to_list deadHostIPToProof ->
  list_to_map ((fun d => (Key d, Value d)) <$> sendDeadHosts None entries)
  = deadHostIPToProof /\
  NoDup (Key <$> sendDeadHosts None entries) /\
  (forall d, d ∈ sendDeadHosts ctx entries ->
             deadHostIPToProof !! Key d = Some (Value d)).
Proof.
  intros Hperm. split_and!.
  - rewrite sendDeadHosts_pairs. simpl.
    trans (list_to_map (M:=gmap string string) (map_to_list deadHostIPToProof));
      [|apply list_to_map_to_list].
    apply list_to_map_proper; [|done].
    rewrite Hperm. apply NoDup_fst_map_to_list.
  - assert (Key <$> sendDeadHosts None entries = entries.*1) as ->.
    { pose proof (sendDeadHosts_pairs None entries) as Hp. unfold limit in Hp.
      assert (entries.*1
              = ((fun d => (Key d, Value d)) <$> sendDeadHosts None entries).*1)
        as -> by (by rewrite Hp).
      by rewrite <-list_fmap_compose. }
    rewrite Hperm. apply NoDup_fst_map_to_list.
  - intros d Hd. apply elem_of_map_to_list. rewrite <-Hperm.
    assert ((Key d, Value d) ∈ limit ctx entries) as Hin.
    { rewrite <-sendDeadHosts_pairs. apply list_elem_of_fmap. by exists d. }
    destruct ctx as [n|]; simpl in Hin; [|done].
    apply elem_of_take in Hin as (i & Hi & _). by eapply list_elem_of_lookup_2.
Qed.

Lemma forwardScheduled_never_returns {A} fuel (detections : list A) :
  forwardScheduled fuel None detections = None.
Proof.
  revert detections. induction fuel as [|fuel IH]; intros detections; [done|].
  simpl. destruct detections as [|val rest]; [apply IH|]. by rewrite IH.
Qed.

Lemma forwardScheduled_cancelled {A} fuel n (detections : list A) :
  (n < fuel)%nat ->
  forwardScheduled fuel (Some n) detections = Some (take (n / 2) detections).
Proof.
  revert n detections. induction fuel as [|fuel IH]; intros n detections Hn;
    [lia|].
  cbn [forwardScheduled]. destruct n as [|m]; [by rewrite take_0|].
  destruct detections as [|val rest].
  - simpl. rewrite IH by lia. by rewrite !take_nil.
  - destruct m as [|m']; [reflexivity|].
    cbn [fmap option_fmap option_map Nat.pred]. rewrite IH by lia.
    cbn [fmap option_fmap option_map].
    replace (S (S m') / 2)%nat with (S (m' / 2)); [done|].
    change (S (S m')) with (1 * 2 + m')%nat. rewrite Nat.div_add_l by lia. lia.
Qed.

(** X12: for a scheduled scan [ScanResults] forwards the events of
    [Detections] in order, at the cost of two channel operations per event.
    Once the channel of [Detections] is closed the loop polls it again and
    again: without cancellation it never returns, and when the cancellation
    case is taken after [n] channel operations it returns having sent the
    first [n / 2] events. *)
Theorem scheduled_forwarding_ends_only_by_cancellation {A}
    (detections : list A) :
  (forall fuel, forwardScheduled fuel None detections = None) /\
  (forall n fuel,
      (n < fuel)%nat ->
      forwardScheduled fuel (Some n) detections
      = Some (take (n / 2) detections)).
Proof.
  split.
  - intros fuel. apply forwardScheduled_never_returns.
  - intros n fuel. apply forwardScheduled_cancelled.
Qed.

End scan_results_path.

Lemma dead_hosts_round_trip_witness :
  fixtures.twoDeadEntries ≡ₚ map_to_list fixtures.twoDead /\
  list_to_map ((fun d => (scanresults.Key d, scanresults.Value d))
                 <$> scanresults.sendDeadHosts None fixtures.twoDeadEntries)
  = fixtures.twoDead.
Proof.
  assert (fixtures.twoDeadEntries ≡ₚ map_to_list fixtures.twoDead) as Hperm.
  { apply (bool_decide_unpack _). vm_compute. exact I. }
  split; [exact Hperm|].
  exact (proj1 (dead_hosts_round_trip fixtures.twoDead fixtures.twoDeadEntries
                  None Hperm)).
Defined.

(* ===================================================================== *)
(** * The IPs of [Discovery] *)
(* ===================================================================== *)

Section unique_ips.
Import spec discovery.

Lemma filter_all {A} (P : A -> Prop) `{!forall x, Decision (P x)} (l : list A) :
  (forall x, x ∈ l -> P x) -> filter P l = l.
Proof.
  induction l as [|x l IH]; intros Hall; [done|].
  rewrite filter_cons_True by (apply Hall; left).
  rewrite IH; [done|]. intros y Hy. apply Hall. by right.
Qed.

Lemma Records_insert seen acc i :
  Records seen acc -> Records (<[i := true]> seen) (acc ++ [i]).
Proof.
  intros Hrec j. rewrite elem_of_app, list_elem_of_singleton.
  destruct (decide (i = j)) as [->|Hne].
  - rewrite lookup_insert_eq. simpl. split; [by right|done].
  - rewrite lookup_insert_ne by done. rewrite (Hrec j).
    split; [by left|]. intros [?| ->]; [done|]. by destruct Hne.
Qed.

Lemma firsts_elem_of l x : x ∈ firsts l <-> x ∈ l.
Proof.
  induction l as [|y l IH]; [done|]. simpl.
  rewrite !elem_of_cons, list_elem_of_filter, IH.
  destruct (decide (x = y)) as [->|Hne]; [by split; left|].
  split.
  - intros [?|[_ ?]]; [by left|by right].
  - intros [?|?]; [by left|by right].
Qed.

Lemma firsts_NoDup l : NoDup (firsts l).
Proof.
  induction l as [|y l IH]; simpl; [constructor|].
  apply NoDup_cons. split.
  - rewrite list_elem_of_filter. by intros [? _].
  - by apply NoDup_filter.
Qed.

Lemma firsts_sublist l : firsts l `sublist_of` l.
Proof.
  induction l as [|y l IH]; simpl; [done|].
  apply sublist_skip. etrans; [apply sublist_filter|done].
Qed.

Lemma firsts_id l : NoDup l -> firsts l = l.
Proof.
  induction 1 as [|y l Hy Hnd IH]; simpl; [done|]. rewrite IH. f_equal.
  apply filter_all. by intros x Hx ->.
Qed.

Lemma uniqueLoop_firsts ips seen acc :
  Records seen acc ->
  uniqueLoop ips seen acc = acc ++ filter (fun y => y ∉ acc) (firsts ips).
Proof.
  revert seen acc. induction ips as [|i ips IH]; intros seen acc Hrec.
  - simpl. by rewrite app_nil_r.
  - cbn [uniqueLoop firsts].
    destruct (default false (seen !! i)) eqn:Hi; simpl.
    + apply Hrec in Hi. rewrite (IH _ _ Hrec). f_equal.
      rewrite filter_cons_False by (by intros Hn; apply Hn).
      rewrite list_filter_filter. apply list_filter_iff.
      intros y. split; [|by intros [? _]]. intros Hy. split; [done|].
      by intros ->.
    + assert (i ∉ acc) as Hni.
      { intros Hin. apply Hrec in Hin. congruence. }
      rewrite (IH _ _ (Records_insert _ _ i Hrec)).
      rewrite filter_cons_True by done. rewrite <-app_assoc. simpl.
      do 2 f_equal. rewrite list_filter_filter. apply list_filter_iff.
      intros y. rewrite elem_of_app, list_elem_of_singleton. split.
      * intros Hy. split; [by intros ?; apply Hy; left|].
        by intros ->; apply Hy; right.
      * intros [Hy Hne] [?|?]; [by apply Hy|by apply Hne].
Qed.

(** X13: the list of IPs that [Discovery] builds from its matches keeps each
    IP at its first occurrence and drops the repetitions: it has no
    duplicates, holds exactly the IPs of the matches, in the order of their
    first occurrences, and is the list of the matches' IPs itself when these
    are already distinct. *)
Theorem discovery_ips_are_first_occurrences {M} (IP : M -> string)
    (matches : list M) :
  uniqueIPs IP matches = firsts (IP <$> matches) /\
  NoDup (uniqueIPs IP matches) /\
  (forall i, i ∈ uniqueIPs IP matches <-> exists m, m ∈ matches /\ IP m = i) /\
  uniqueIPs IP matches `sublist_of` (IP <$> matches) /\
  (NoDup (IP <$> matches) -> uniqueIPs IP matches = IP <$> matches).
Proof.
  assert (uniqueIPs IP matches = firsts (IP <$> matches)) as Heq.
  { unfold uniqueIPs. rewrite uniqueLoop_firsts.
    - simpl. apply filter_all. intros x _ Hx. by apply elem_of_nil in Hx.
    - intros i. rewrite lookup_empty. simpl. split; [done|].
      intros Hi. by apply elem_of_nil in Hi. }
  rewrite Heq. split_and!.
  - done.
  - apply firsts_NoDup.
  - intros i. rewrite firsts_elem_of, list_elem_of_fmap. split.
    + intros (m & -> & Hm). by exists m.
    + intros (m & Hm & <-). by exists m.
  - apply firsts_sublist.
  - apply firsts_id.
Qed.

End unique_ips.

(* ===================================================================== *)
(** * The loop of [Scans] *)
(* ===================================================================== *)

Section scans_loop.
Import qualys connector spec scans.

Lemma length_pos (s : string) : (0 < String.length s)%nat <-> s <> EmptyString.
Proof. destruct s; simpl; split; (done || lia). Qed.

(** One iteration of the loop without cancellation. *)
Lemma scansLoop_step api payload rest seen :
  exists evs seen',
    scansLoop api (payload :: rest) None seen
    = evs ++ scansLoop api rest None seen' /\
    seenBy seen evs = seen' /\
    scansLoop api [payload] None seen = evs /\
    (Quiet api seen payload -> evs = [] /\ seen' = seen).
Proof.
  cbn [scansLoop fmap option_fmap option_map].
  destruct (Unmarshal api payload) as [s|] eqn:Hu.
  - case_decide as Hid.
    + exists [Sent s], (<[Name s := true]> seen). split_and!; try done.
      unfold Quiet. rewrite Hu. intros [Hq _]. apply length_pos in Hid. done.
    + destruct (negb (default false (seen !! Name s))
                && bool_decide (0 < String.length (Name s))%nat) eqn:Hc.
      * apply andb_true_iff in Hc as [Hs Hn].
        apply negb_true_iff in Hs. apply bool_decide_eq_true in Hn.
        assert (~ Quiet api seen payload) as Hnq.
        { unfold Quiet. rewrite Hu. intros [_ [Hq|Hq]]; [|congruence].
          by apply length_pos in Hn. }
        destruct (GetScheduledScan api (Name s)) as [e|[ss|]].
        -- exists [Looked (Name s)], seen. by split_and!.
        -- destruct (GetAssetTagTargetOfScheduledScan api (Name s)) as [e|tg].
           ++ exists [Looked (Name s); Targeted (Name s)], seen. by split_and!.
           ++ exists [Looked (Name s); Targeted (Name s);
                      Sent (resolved s ss tg)], (<[Name s := true]> seen).
              by split_and!.
        -- exists [Looked (Name s)], seen. by split_and!.
      * exists [], seen. by split_and!.
  - exists [], seen. by split_and!.
Qed.

Lemma seenBy_app seen t1 t2 : seenBy seen (t1 ++ t2) = seenBy (seenBy seen t1) t2.
Proof. unfold seenBy. by rewrite foldl_app. Qed.

Lemma scansLoop_app api l1 l2 seen :
  scansLoop api (l1 ++ l2) None seen
  = scansLoop api l1 None seen
    ++ scansLoop api l2 None (seenBy seen (scansLoop api l1 None seen)).
Proof.
  revert seen. induction l1 as [|p l1 IH]; intros seen; [done|].
  rewrite <-app_comm_cons.
  destruct (scansLoop_step api p (l1 ++ l2) seen) as (evs & seen' & -> & Hs & He & _).
  destruct (scansLoop_step api p l1 seen) as (evs' & seen'' & -> & Hs' & He' & _).
  rewrite He in He'. subst evs'.
  rewrite Hs in Hs'. subst seen''.
  rewrite IH, <-app_assoc, seenBy_app, Hs. done.
Qed.

Lemma seenBy_lookup seen tr n :
  default false (seenBy seen tr !! n) = true <->
  default false (seen !! n) = true \/ n ∈ Name <$> omap sent tr.
Proof.
  revert seen. induction tr as [|e tr IH]; intros seen.
  - simpl. split; [by left|]. intros [?|Hn]; [done|]. by apply elem_of_nil in Hn.
  - change (seenBy seen (e :: tr)) with (seenBy (seenBy seen [e]) tr).
    rewrite IH. unfold seenBy at 1. simpl. destruct e as [m|m|s]; csimpl.
    + done.
    + done.
    + rewrite elem_of_cons. destruct (decide (Name s = n)) as [<-|Hne].
      * rewrite lookup_insert_eq. simpl. split; [by right; left|by left].
      * rewrite lookup_insert_ne by done. split.
        -- intros [?|?]; [by left|by right; right].
        -- intros [?|[?|?]]; [by left|by destruct Hne|by right].
Qed.

Lemma scansLoop_quiet api l seen :
  Forall (Quiet api seen) l -> scansLoop api l None seen = [].
Proof.
  induction 1 as [|p l Hp Hl IH]; [done|].
  destruct (scansLoop_step api p l seen) as (evs & seen' & -> & _ & _ & Hq).
  destruct (Hq Hp) as [-> ->]. done.
Qed.

(** X14: without cancellation [Scans] sends every scan whose payload carries
    a scan ID, unchanged and in the order of the payloads, whatever names
    were seen before. *)
Theorem scans_with_an_id_pass_through (api : Api) (payloads : list string) :
  filter (fun s => 0 < String.length (ScanID s))%nat
         (omap (Unmarshal api) payloads)
  `sublist_of` omap sent (Scans api None payloads).
Proof.
  unfold Scans. generalize (∅ : gmap string bool).
  induction payloads as [|p payloads IH]; intros seen; [done|].
  destruct (scansLoop_step api p payloads seen) as (evs & seen' & -> & _ & He & _).
  rewrite omap_app. csimpl.
  cbn [scansLoop fmap option_fmap option_map] in He.
  destruct (Unmarshal api p) as [s|]; [|by apply sublist_inserts_l].
  destruct (decide (0 < String.length (ScanID s))%nat) as [Hid|Hid].
  - rewrite filter_cons_True by done. subst evs. csimpl. by apply sublist_skip.
  - rewrite filter_cons_False by done. by apply sublist_inserts_l.
Qed.

(** X15: once a scan of some name has been sent, later payloads that carry
    that name and no scan ID are ignored: they cause no call of the API and
    no output. *)
Theorem seen_names_are_not_resolved_again
    (api : Api) (before after : list string) :
  Forall (fun p => exists s,
              Unmarshal api p = Some s /\ ScanID s = EmptyString /\
              Name s ∈ Name <$> omap sent (Scans api None before)) after ->
  Scans api None (before ++ after) = Scans api None before.
Proof.
  intros Hafter. unfold Scans. rewrite scansLoop_app.
  rewrite (scansLoop_quiet api after); [by rewrite app_nil_r|].
  eapply Forall_impl; [exact Hafter|]. intros p (s & Hu & Hid & Hn).
  unfold Quiet. rewrite Hu. split; [done|]. right.
  apply seenBy_lookup. by right.
Qed.

(** X16: a payload that does not decode, and a payload that has neither a
    scan ID nor a name, leave no trace in [Scans]: the run is the run
    without that payload. *)
Theorem undecodable_payloads_are_skipped
    (api : Api) (before after : list string) (payload : string) :
  (Unmarshal api payload = None \/
   exists s, Unmarshal api payload = Some s /\
             ScanID s = EmptyString /\ Name s = EmptyString) ->
  Scans api None (before ++ payload :: after) = Scans api None (before ++ after).
Proof.
  intros Hp. unfold Scans. rewrite !scansLoop_app. f_equal.
  destruct (scansLoop_step api payload after
              (seenBy ∅ (scansLoop api before None ∅)))
    as (evs & seen' & -> & _ & _ & Hq).
  destruct Hq as [-> ->]; [|done].
  unfold Quiet. destruct Hp as [->|(s & -> & Hid & Hn)]; [done|]. by split; [|left].
Qed.

Lemma scansLoop_prefix api ctx payloads seen :
  scansLoop api payloads ctx seen `prefix_of` scansLoop api payloads None seen.
Proof.
  revert ctx seen.
  induction payloads as [|p payloads IH]; intros ctx seen; [done|].
  cbn [scansLoop]. destruct ctx as [[|n]|]; [apply prefix_nil| |done].
  cbn [fmap option_fmap option_map Nat.pred].
  destruct (Unmarshal api p) as [s|]; [|apply IH].
  case_decide.
  - destruct n as [|n]; [apply prefix_nil|]. apply prefix_cons, IH.
  - destruct (negb _ && _); [|apply IH].
    destruct (GetScheduledScan api (Name s)) as [e|[ss|]].
    + apply prefix_cons, IH.
    + destruct (GetAssetTagTargetOfScheduledScan api (Name s)) as [e|tg].
      * do 2 apply prefix_cons. apply IH.
      * destruct n as [|n].
        -- do 2 apply prefix_cons. apply prefix_nil.
        -- do 3 apply prefix_cons. apply IH.
    + apply prefix_cons, IH.
Qed.

Lemma scansLoop_looked api payloads seen name :
  Looked name ∈ scansLoop api payloads None seen ->
  name <> EmptyString /\
  exists p s, p ∈ payloads /\ Unmarshal api p = Some s /\
              ScanID s = EmptyString /\ Name s = name.
Proof.
  revert seen. induction payloads as [|p payloads IH]; intros seen Hin.
  { by apply elem_of_nil in Hin. }
  assert (forall seen',
             Looked name ∈ scansLoop api payloads None seen' ->
             name <> EmptyString /\
             exists p0 s, p0 ∈ p :: payloads /\ Unmarshal api p0 = Some s /\
                          ScanID s = EmptyString /\ Name s = name) as Hrest.
  { intros seen' H'. destruct (IH _ H') as (? & p0 & s & ? & ?).
    split; [done|]. exists p0, s. split; [by right|done]. }
  cbn [scansLoop fmap option_fmap option_map] in Hin.
  destruct (Unmarshal api p) as [s|] eqn:Hu; [|by eapply Hrest].
  destruct (decide (0 < String.length (ScanID s))%nat) as [Hid|Hid].
  - apply elem_of_cons in Hin as [Hin|Hin]; [done|by eapply Hrest].
  - destruct (negb (default false (seen !! Name s))
              && bool_decide (0 < String.length (Name s))%nat) eqn:Hc;
      [|by eapply Hrest].
    apply andb_true_iff in Hc as [_ Hn]. apply bool_decide_eq_true in Hn.
    apply length_pos in Hn.
    assert (ScanID s = EmptyString) as Hid'.
    { destruct (ScanID s); [done|]. simpl in Hid. lia. }
    assert (Looked name = Looked (Name s) ->
            name <> EmptyString /\
            exists p0 s0, p0 ∈ p :: payloads /\ Unmarshal api p0 = Some s0 /\
                          ScanID s0 = EmptyString /\ Name s0 = name) as Hhere.
    { intros [= ->]. split; [done|]. exists p, s. split; [by left|done]. }
    destruct (GetScheduledScan api (Name s)) as [e|[ss|]].
    + apply elem_of_cons in Hin as [Hin|Hin]; [by apply Hhere|by eapply Hrest].
    + destruct (GetAssetTagTargetOfScheduledScan api (Name s)) as [e|tg].
      * apply elem_of_cons in Hin as [Hin|Hin]; [by apply Hhere|].
        apply elem_of_cons in Hin as [Hin|Hin]; [done|by eapply Hrest].
      * apply elem_of_cons in Hin as [Hin|Hin]; [by apply Hhere|].
        apply elem_of_cons in Hin as [Hin|Hin]; [done|].
        apply elem_of_cons in Hin as [Hin|Hin]; [done|by eapply Hrest].
    + apply elem_of_cons in Hin as [Hin|Hin]; [by apply Hhere|by eapply Hrest].
Qed.

(** X17: [GetScheduledScan] is called only for a decoded payload without a
    scan ID, with its name, and never with an empty name; this holds under
    any cancellation. *)
Theorem lookups_are_for_named_payloads_without_id
    (api : Api) (ctx : Ctx) (payloads : list string) (name : string) :
  Looked name ∈ Scans api ctx payloads ->
  name <> EmptyString /\
  exists p s, p ∈ payloads /\ Unmarshal api p = Some s /\
              ScanID s = EmptyString /\ Name s = name.
Proof.
  unfold Scans. intros Hin. eapply scansLoop_looked.
  eapply elem_of_prefix; [exact Hin|apply scansLoop_prefix].
Qed.

(** X18: cancellation only cuts a run of [Scans] short: what the goroutine
    does before it takes the cancellation case is the beginning of what it
    does without cancellation. *)
Theorem cancellation_cuts_scans_short
    (api : Api) (ctx : Ctx) (payloads : list string) :
  Scans api ctx payloads `prefix_of` Scans api None payloads.
Proof. unfold Scans. apply scansLoop_prefix. Qed.

End scans_loop.

Lemma seen_names_are_not_resolved_again_witness :
  Forall (fun p => exists s,
              scans.Unmarshal fixtures.scanApi p = Some s /\
              scans.ScanID s = EmptyString /\
              scans.Name s
                ∈ scans.Name <$> omap scans.sent
                                   (scans.Scans fixtures.scanApi None ["scan/9"]))
         ["weekly"] /\
  scans.Scans fixtures.scanApi None (["scan/9"] ++ ["weekly"])
  = scans.Scans fixtures.scanApi None ["scan/9"].
Proof.
  assert (Forall (fun p => exists s,
                      scans.Unmarshal fixtures.scanApi p = Some s /\
                      scans.ScanID s = EmptyString /\
                      scans.Name s
                        ∈ scans.Name <$> omap scans.sent
                            (scans.Scans fixtures.scanApi None ["scan/9"]))
                 ["weekly"]) as Hafter.
  { constructor; [|constructor]. exists fixtures.weekly.
    split; [reflexivity|]. split; [reflexivity|]. apply list_elem_of_here. }
  split; [exact Hafter|].
  exact (seen_names_are_not_resolved_again fixtures.scanApi ["scan/9"]
           ["weekly"] Hafter).
Defined.

Lemma undecodable_payloads_are_skipped_witness :
  scans.Unmarshal fixtures.scanApi "{" = None /\
  scans.Scans fixtures.scanApi None (["weekly"] ++ "{" :: ["scan/9"])
  = scans.Scans fixtures.scanApi None (["weekly"] ++ ["scan/9"]).
Proof.
  split; [reflexivity|].
  apply (undecodable_payloads_are_skipped fixtures.scanApi ["weekly"]
           ["scan/9"] "{"). left. reflexivity.
Defined.

Lemma lookups_are_for_named_payloads_without_id_witness :
  scans.Looked "weekly" ∈ scans.Scans fixtures.scanApi None ["weekly"] /\
  "weekly" <> EmptyString.
Proof.
  assert (scans.Looked "weekly"
            ∈ scans.Scans fixtures.scanApi None ["weekly"]) as Hin.
  { apply list_elem_of_here. }
  split; [exact Hin|].
  exact (proj1 (lookups_are_for_named_payloads_without_id fixtures.scanApi
                  None ["weekly"] "weekly" Hin)).
Defined.

(* ===================================================================== *)
(** * The goroutines of [KnowledgeBase] *)
(* ===================================================================== *)

Section knowledge_base.
Import knowledgebase.

Lemma succ_mod_50 count :
  (S count mod 50 = 0 \/ S count mod 50 = S (count mod 50))%nat.
Proof.
  pose proof (Nat.div_mod_eq count 50) as Hc.
  pose proof (Nat.mod_upper_bound count 50 ltac:(lia)) as Hr.
  destruct (decide (count mod 50 = 49)%nat) as [H49|H49].
  - left. symmetry. apply (Nat.mod_unique _ 50 (S (count / 50))); lia.
  - right. symmetry. apply (Nat.mod_unique _ 50 (count / 50)); lia.
Qed.

Lemma kbLoop_bound n cancel count pending :
  (pending <= count mod 50 + 1)%nat ->
  Forall (fun p => 1 <= p <= 50)%nat (kbLoop n cancel count pending).
Proof.
  revert cancel count pending.
  induction n as [|n IH]; intros cancel count pending Hinv; [constructor|].
  pose proof (Nat.mod_upper_bound count 50 ltac:(lia)) as Hr.
  pose proof (Nat.mod_upper_bound (S count) 50 ltac:(lia)) as Hr'.
  cbn [kbLoop]. destruct cancel as [[|c]|]; [constructor| |].
  - case_decide as Hm.
    + constructor; [lia|]. apply IH. lia.
    + destruct (succ_mod_50 count) as [?|Hs]; [done|].
      constructor; [lia|]. apply IH. lia.
  - case_decide as Hm.
    + constructor; [lia|]. apply IH. lia.
    + destruct (succ_mod_50 count) as [?|Hs]; [done|].
      constructor; [lia|]. apply IH. lia.
Qed.

Lemma kbLoop_length n count pending :
  length (kbLoop n None count pending) = n.
Proof.
  revert count pending. induction n as [|n IH]; intros count pending; [done|].
  cbn [kbLoop length fmap option_fmap option_map]. by rewrite IH.
Qed.

(** X19: [KnowledgeBase] never has more than 50 of its goroutines in flight:
    the number of goroutines it has started since its last join stays
    between 1 and 50, however many vulnerabilities are loaded and whenever
    the run is cancelled; without cancellation it starts one goroutine per
    vulnerability. *)
Theorem knowledge_base_batches_of_fifty (n : nat) (cancel : option nat) :
  Forall (fun p => 1 <= p <= 50)%nat (kbLoop n cancel 0 0) /\
  length (kbLoop n None 0 0) = n /\
  kbLoop 100 None 0 0 !! 98%nat = Some 50%nat.
Proof.
  split_and!.
  - apply kbLoop_bound. simpl. lia.
  - apply kbLoop_length.
  - by vm_compute.
Qed.

End knowledge_base.

(* ===================================================================== *)
(** * Scheduled scans: from the group ID text to the requests *)
(* ===================================================================== *)

Section scheduled_scans.
Import qualys connector spec.
Context `{Endpoints}.

Lemma splitIDs_groups_only ids :
  (forall id, id ∈ ids -> forall pre post, id <> pre +:+ tagPrefix +:+ post) ->
  splitIDs ids [] [] = ([], ids).
Proof.
  intros Hids. rewrite splitIDs_classify. simpl.
  assert (classify <$> ids = inr <$> ids) as ->.
  { apply list_fmap_ext. intros i id Hi. apply Classified_classify.
    constructor. apply Hids. by eapply list_elem_of_lookup_2. }
  clear Hids. f_equal.
  - induction ids as [|id ids IH]; [done|]. by csimpl.
  - induction ids as [|id ids IH]; [done|]. csimpl. by rewrite IH.
Qed.

Lemma stage_requests_fields fetch sc st fuel s p fs req :
  (forall ps, fetch ps = getHostDetectionPostData fuel s ps p fs) ->
  stage fetch sc = Some st -> req ∈ requests st -> fields req = fs.
Proof.
  intros Hfetch. unfold stage. rewrite Hfetch. unfold getHostDetectionPostData.
  destruct (pages _ _ _ _ _) as [run|] eqn:Hrun; [|done].
  destruct (returned s _ _) as [total e]. simpl.
  apply pages_chain in Hrun.
  destruct e; intros [= <-]; simpl; by eapply chain_fields.
Qed.

(** X20: when [ScanResults] handles a scheduled scan whose group ID text
    lists asset groups only, no tag stage runs and every request of the
    group-ID stage carries that text itself as its asset groups: splitting
    the text at the commas and joining the groups again gives it back. *)
Theorem scheduled_groups_reach_the_requests
    (fuel : nat) (session : QsSession) (sch : Schedule) (groupID : string)
    (call : Call) :
  Detections fuel session sch (strings.Split groupID ",") = Some call ->
  (forall id, id ∈ strings.Split groupID "," ->
              forall pre post, id <> pre +:+ tagPrefix +:+ post) ->
  tags call = None /\
  exists st,
    groups call = Some st /\
    requests st <> [] /\
    forall req, req ∈ requests st -> fields req !! "ag_ids" = Some groupID.
Proof.
  intros Hcall Hids. unfold Detections in Hcall.
  rewrite (splitIDs_groups_only _ Hids) in Hcall.
  destruct (strings.Split groupID ",") as [|g gs] eqn:Hsplit;
    [by apply splitFrom_nonempty in Hsplit|].
  simpl in Hcall.
  destruct (stage _ (groupStage sch)) as [st|] eqn:Hst; [|done].
  injection Hcall as <-. simpl. split; [done|]. exists st. split; [done|].
  split.
  - eapply stage_first_request in Hst; [|done]. by destruct (requests st).
  - intros req Hin. erewrite stage_requests_fields; [|done|exact Hst|done].
    unfold groupFields. rewrite lookup_insert_eq. f_equal.
    rewrite <-Hsplit. by apply Join_Split.
Qed.

End scheduled_scans.

Lemma scheduled_groups_reach_the_requests_witness :
  fixtures.scheduledRun = Some fixtures.scheduledCall /\
  connector.tags fixtures.scheduledCall = None /\
  exists st,
    connector.groups fixtures.scheduledCall = Some st /\
    connector.requests st <> [] /\
    forall req, req ∈ connector.requests st ->
                qualys.fields req !! "ag_ids" = Some "ag1,ag2".
Proof.
  assert (fixtures.scheduledRun = Some fixtures.scheduledCall) as Hrun
      by reflexivity.
  split; [exact Hrun|].
  apply (@scheduled_groups_reach_the_requests fixtures.endpoints _ _ _ _ _ Hrun).
  intros id Hin pre post.
  apply elem_of_cons in Hin as [->|Hin]; [by apply (index_from_absent 0)|].
  apply elem_of_cons in Hin as [->|Hin]; [by apply (index_from_absent 0)|].
  by apply elem_of_nil in Hin.
Defined.
